(** * OpenSoT: the qpOASES back-end, constraint classification and task aggregation

    A shallow embedding of

    - [src/src/solvers/QPOasesProblem.cpp] and
      [src/include/OpenSoT/solvers/QPOasesProblem.h] (class [QPOasesProblem]),
    - [src/include/OpenSoT/Constraint.h] (the classification predicates),
    - the [Aggregated] task combinator, whose implementation file is not part
      of the sources (only its header and its test are).

    The model is the release build: [NDEBUG] is defined, so [assert] and the
    diagnostic printing are compiled out, and so are Eigen's index checks.
    An out-of-range index into an Eigen vector is then undefined behaviour;
    the model returns [None] there. *)

From Stdlib Require Import ZArith PrimFloat.
From stdpp Require Import base option list strings pretty.

Set Default Proof Using "Type".

(** ** Scalars

    [qpOASES::real_t] is [double].  The program only compares scalars with
    [<] and [>], negates the constant [INFTY] and (in the task combinator)
    multiplies by a gain, so the model is written over any type with these
    operations.  The only facts used are that neither [-INFTY < -INFTY] nor
    [INFTY > INFTY] holds. *)

Class Real_t := {
  real_t : Type;
  real_zero : real_t;
  real_lt : real_t -> real_t -> bool;
  real_opp : real_t -> real_t;
  real_mul : real_t -> real_t -> real_t;
  (** [qpOASES::INFTY], declared in qpOASES' [Constants.hpp]. *)
  INFTY : real_t;
  INFTY_not_gt : real_lt INFTY INFTY = false;
  neg_INFTY_not_lt : real_lt (real_opp INFTY) (real_opp INFTY) = false
}.

(** IEEE 754 binary64, the [double] of the program; [INFTY] has the value
    qpOASES gives it for [double]. *)
#[export] Program Instance Double : Real_t := {|
  real_t := float;
  real_zero := 0%float;
  real_lt := PrimFloat.ltb;
  real_opp := PrimFloat.opp;
  real_mul := PrimFloat.mul;
  INFTY := 1e20%float
|}.
Next Obligation. reflexivity. Qed.
Next Obligation. reflexivity. Qed.

Section Eigen.
Context {R : Real_t}.

(** [Eigen::VectorXd]. *)
Abbreviation VectorXd := (list real_t).

(** [Eigen::MatrixXd]: the column count is kept apart from the rows, since
    a matrix with no rows still has columns ([_H.cols()] is compared by
    [updateTask] and [updateConstraints]). *)
Record MatrixXd := mkMatrix {
  cols : nat;
  row_list : list (list real_t)
}.

Definition rows (M : MatrixXd) : nat := length (row_list M).

(** [M.setZero(0,0)] and [v.setZero(0)]. *)
Definition empty_matrix : MatrixXd := mkMatrix 0 [].
Definition empty_vector : VectorXd := [].

(** [v.resize(n)] guarded by [v.rows() != n] as the program writes it: the
    vector is kept when it has the size already; otherwise Eigen
    reallocates, and the fresh entries (indeterminate in C++) are zero
    here. *)
Definition resize_to (n : nat) (v : VectorXd) : VectorXd :=
  if length v =? n then v else replicate n real_zero.

(** [unsigned int n = v.rows()]: a size kept in 32 bits. *)
Definition to_unsigned (n : nat) : nat := Z.to_nat (Z.of_nat n mod 2 ^ 32).

End Eigen.

Arguments MatrixXd {_}.
Abbreviation VectorXd := (list real_t).
Arguments mkMatrix {_} _ _.

(** ** The logger

    [XBot::MatLogger] is not part of the repository.  The program only calls
    [add(name, data)] on it; a logger is the list of what was added, in
    order. *)

Section Logger.
Context {R : Real_t}.

Inductive LogData :=
| LogMatrix (M : MatrixXd)
| LogVector (v : list real_t).

Definition MatLogger : Type := list (string * LogData).

(** [logger->add(name, data)]. *)
Definition add (name : string) (data : LogData) (logger : MatLogger) : MatLogger :=
  logger ++ [(name, data)].

(** The payload has at least one coefficient. *)
Definition nonempty_data (d : LogData) : Prop :=
  match d with
  | LogMatrix M => 0 < rows M /\ 0 < cols M
  | LogVector v => 0 < length v
  end.

End Logger.

(** ** Constraint ([src/include/OpenSoT/Constraint.h]) *)

Module Constraint.
Section Constraint.
Context {R : Real_t}.

Record Constraint := mkConstraint {
  _constraint_id : string;
  _x_size : nat;
  _lowerBound : VectorXd;
  _upperBound : VectorXd;
  _Aeq : MatrixXd;
  _beq : VectorXd;
  _Aineq : MatrixXd;
  _bLowerBound : VectorXd;
  _bUpperBound : VectorXd
}.

Definition isEqualityConstraint (c : Constraint) : bool :=
  bool_decide (0 < rows (_Aeq c)).

Definition isInequalityConstraint (c : Constraint) : bool :=
  bool_decide (0 < rows (_Aineq c)).

Definition isUnilateralConstraint (c : Constraint) : bool :=
  isInequalityConstraint c &&
  ((length (_bLowerBound c) =? 0) || (length (_bUpperBound c) =? 0)).

Definition isBilateralConstraint (c : Constraint) : bool :=
  isInequalityConstraint c && negb (isUnilateralConstraint c).

Definition hasBounds (c : Constraint) : bool :=
  bool_decide (0 < length (_upperBound c)) || bool_decide (0 < length (_lowerBound c)).

Definition isConstraint (c : Constraint) : bool :=
  isEqualityConstraint c || isInequalityConstraint c.

Definition isBound (c : Constraint) : bool :=
  hasBounds c && negb (isConstraint c).

(** The classification the specification gives for "unilateral": exactly one
    of the two inequality bounds is empty. *)
Definition exactly_one_empty (c : Constraint) : bool :=
  xorb (length (_bLowerBound c) =? 0) (length (_bUpperBound c) =? 0).

(** The constructor: the id and [x_size] are stored, every Eigen member is
    default-constructed, that is, empty. *)
Definition new_Constraint (constraint_id : string) (x_size : nat) : Constraint :=
  mkConstraint constraint_id x_size [] [] empty_matrix [] empty_matrix [] [].

(** [getConstraintID] and [getXSize]. *)
Definition getConstraintID (c : Constraint) : string := _constraint_id c.
Definition getXSize (c : Constraint) : nat := _x_size c.

(** [_log], the hook of the base class: it does nothing. *)
Definition _log (logger : MatLogger) (c : Constraint) : MatLogger := logger.

(** [log]: every member that is not empty is added under the id of the
    constraint followed by the name of the member. *)
Definition log (logger : MatLogger) (c : Constraint) : MatLogger :=
  let logger :=
    if (0 <? rows (_Aeq c)) && (0 <? cols (_Aeq c))
    then add (_constraint_id c +:+ "_Aeq") (LogMatrix (_Aeq c)) logger
    else logger in
  let logger :=
    if (0 <? rows (_Aineq c)) && (0 <? cols (_Aineq c))
    then add (_constraint_id c +:+ "_Aineq") (LogMatrix (_Aineq c)) logger
    else logger in
  let logger :=
    if 0 <? length (_beq c)
    then add (_constraint_id c +:+ "_beq") (LogVector (_beq c)) logger
    else logger in
  let logger :=
    if 0 <? length (_bLowerBound c)
    then add (_constraint_id c +:+ "_bLowerBound") (LogVector (_bLowerBound c)) logger
    else logger in
  let logger :=
    if 0 <? length (_bUpperBound c)
    then add (_constraint_id c +:+ "_bUpperBound") (LogVector (_bUpperBound c)) logger
    else logger in
  let logger :=
    if 0 <? length (_upperBound c)
    then add (_constraint_id c +:+ "_upperBound") (LogVector (_upperBound c)) logger
    else logger in
  let logger :=
    if 0 <? length (_lowerBound c)
    then add (_constraint_id c +:+ "_lowerBound") (LogVector (_lowerBound c)) logger
    else logger in
  _log logger c.

(** The seven member names [log] can append to the id. *)
Definition log_suffixes : list string :=
  ["_Aeq"; "_Aineq"; "_beq"; "_bLowerBound"; "_bUpperBound"; "_upperBound";
   "_lowerBound"].

End Constraint.

(** An inequality constraint with one row and neither bound given. *)
Definition ineq_without_bounds : Constraint (R := Double) :=
  mkConstraint "c" 2 [] [] empty_matrix []
               (mkMatrix 2 [[1%float; 0%float]]) [] [].

End Constraint.

(** ** The qpOASES library, as far as [QPOasesProblem] uses it

    qpOASES is not part of the repository.  Its objects are abstract types
    and its member functions are functions on them; a member function that
    changes the object returns the changed object.  Every call is taken to
    return: what the library does with arrays that are shorter than the
    dimensions of the problem is not modelled. *)

(** [qpOASES::returnValue]: the program only tells [SUCCESSFUL_RETURN] and,
    in diagnostic code, [RET_INIT_FAILED_INFEASIBILITY] from the rest. *)
Inductive returnValue :=
| SUCCESSFUL_RETURN
| RET_INIT_FAILED_INFEASIBILITY
| RET_ERROR (code : nat).

Definition is_success (val : returnValue) : bool :=
  match val with SUCCESSFUL_RETURN => true | _ => false end.

Class qpOASES {R : Real_t} := {
  SQProblem : Type;
  Options : Type;
  Bounds : Type;
  Constraints : Type;
  HessianType : Type;
  (** [SQProblem(nV, nC, hessianType)], [Options()], [Bounds()],
      [Constraints()]. *)
  new_SQProblem : nat -> nat -> HessianType -> SQProblem;
  new_Options : Options;
  new_Bounds : Bounds;
  new_Constraints : Constraints;
  (** The option set that [setDefaultOptions] builds from a fresh [Options]
      ([setToMPC], the six assignments, [ensureConsistency]); it depends on
      the program's data only through [_epsRegularisation]. *)
  mpc_options : real_t -> Options;
  setOptions : Options -> SQProblem -> SQProblem;
  getHessianType : SQProblem -> HessianType;
  setHessianType : HessianType -> SQProblem -> SQProblem;
  getNV : SQProblem -> nat;
  getNC : SQProblem -> nat;
  (** [init(H, g, A, lb, ub, lbA, ubA, nWSR, cputime, xOpt, yOpt,
      guessedBounds, guessedConstraints)]: [nWSR] is passed by reference and
      comes back as the second component; the four last arguments are null
      when the guess is [None]. *)
  init : MatrixXd -> VectorXd -> MatrixXd -> VectorXd -> VectorXd ->
         VectorXd -> VectorXd -> Z ->
         option (VectorXd * VectorXd * Bounds * Constraints) ->
         SQProblem -> returnValue * Z * SQProblem;
  (** [hotstart(H, g, A, lb, ub, lbA, ubA, nWSR, cputime)]. *)
  hotstart : MatrixXd -> VectorXd -> MatrixXd -> VectorXd -> VectorXd ->
             VectorXd -> VectorXd -> Z ->
             SQProblem -> returnValue * Z * SQProblem;
  (** [getPrimalSolution(xOpt)] and [getDualSolution(yOpt)] write into the
      buffer they are given: they take its contents and return the new
      contents. *)
  getPrimalSolution : SQProblem -> VectorXd -> returnValue * VectorXd;
  getDualSolution : SQProblem -> VectorXd -> returnValue * VectorXd;
  getBounds : SQProblem -> Bounds;
  getConstraints : SQProblem -> Constraints
}.

(** ** QPOasesProblem ([src/src/solvers/QPOasesProblem.cpp]) *)

Module QPOasesProblem.
Section QPOasesProblem.
Context {R : Real_t} {Q : qpOASES}.

(** The data members of the class, in the order of the header. *)
Record QPOasesProblem := mkQPOasesProblem {
  _problem : SQProblem;
  _bounds : Bounds;
  _constraints : Constraints;
  _nWSR : Z;
  _epsRegularisation : real_t;
  _H : MatrixXd;
  _g : VectorXd;
  _A : MatrixXd;
  _lA : VectorXd;
  _uA : VectorXd;
  _l : VectorXd;
  _u : VectorXd;
  _solution : VectorXd;
  _dual_solution : VectorXd;
  _opt : Options
}.

(** Assignments to groups of members. *)
Definition set_problem (p : SQProblem) (q : QPOasesProblem) : QPOasesProblem :=
  mkQPOasesProblem p (_bounds q) (_constraints q) (_nWSR q)
    (_epsRegularisation q) (_H q) (_g q) (_A q) (_lA q) (_uA q) (_l q) (_u q)
    (_solution q) (_dual_solution q) (_opt q).

Definition set_opt (o : Options) (q : QPOasesProblem) : QPOasesProblem :=
  mkQPOasesProblem (_problem q) (_bounds q) (_constraints q) (_nWSR q)
    (_epsRegularisation q) (_H q) (_g q) (_A q) (_lA q) (_uA q) (_l q) (_u q)
    (_solution q) (_dual_solution q) o.

Definition set_task (H0 : MatrixXd) (g : VectorXd) (q : QPOasesProblem) :
  QPOasesProblem :=
  mkQPOasesProblem (_problem q) (_bounds q) (_constraints q) (_nWSR q)
    (_epsRegularisation q) H0 g (_A q) (_lA q) (_uA q) (_l q) (_u q)
    (_solution q) (_dual_solution q) (_opt q).

Definition set_constraints (A : MatrixXd) (lA uA : VectorXd)
  (q : QPOasesProblem) : QPOasesProblem :=
  mkQPOasesProblem (_problem q) (_bounds q) (_constraints q) (_nWSR q)
    (_epsRegularisation q) (_H q) (_g q) A lA uA (_l q) (_u q)
    (_solution q) (_dual_solution q) (_opt q).

Definition set_bounds (l u : VectorXd) (q : QPOasesProblem) : QPOasesProblem :=
  mkQPOasesProblem (_problem q) (_bounds q) (_constraints q) (_nWSR q)
    (_epsRegularisation q) (_H q) (_g q) (_A q) (_lA q) (_uA q) l u
    (_solution q) (_dual_solution q) (_opt q).

Definition set_solution (x y : VectorXd) (b : Bounds) (c : Constraints)
  (q : QPOasesProblem) : QPOasesProblem :=
  mkQPOasesProblem (_problem q) b c (_nWSR q)
    (_epsRegularisation q) (_H q) (_g q) (_A q) (_lA q) (_uA q) (_l q) (_u q)
    x y (_opt q).

(** [setDefaultOptions]. *)
Definition setDefaultOptions (q : QPOasesProblem) : QPOasesProblem :=
  let opt := mpc_options (_epsRegularisation q) in
  set_opt opt (set_problem (setOptions opt (_problem q)) q).

(** The constructor.  [_solution] and [_dual_solution] are both created with
    [number_of_variables] entries. *)
Definition new_QPOasesProblem (number_of_variables number_of_constraints : nat)
  (hessian_type : HessianType) (eps_regularisation : real_t) : QPOasesProblem :=
  setDefaultOptions
    (mkQPOasesProblem
       (new_SQProblem number_of_variables number_of_constraints hessian_type)
       new_Bounds new_Constraints 132%Z eps_regularisation
       empty_matrix empty_vector empty_matrix empty_vector empty_vector
       empty_vector empty_vector
       (replicate number_of_variables real_zero)
       (replicate number_of_variables real_zero)
       new_Options).

(** [setOptions]. *)
Definition setOptions_ (options : Options) (q : QPOasesProblem) : QPOasesProblem :=
  set_problem (setOptions options (_problem q)) (set_opt options q).

(** One of the two loops of [checkINFTY], with [size - i] iterations left:
    [lo[i]] is read and, when below [-INFTY], overwritten; then [up[i]] is
    read and, when above [INFTY], overwritten.  [up] is indexed with the
    index that runs over [lo]. *)
Fixpoint clamp_loop (left i : nat) (lo up : VectorXd) :
  option (VectorXd * VectorXd) :=
  match left with
  | 0 => Some (lo, up)
  | S left' =>
      lo_i ← lo !! i;
      let lo := if real_lt lo_i (real_opp INFTY)
                then <[i := real_opp INFTY]> lo else lo in
      up_i ← up !! i;
      let up := if real_lt INFTY up_i then <[i := INFTY]> up else up in
      clamp_loop left' (S i) lo up
  end.

(** [checkINFTY]: each loop runs over the size of the lower vector, which
    the program keeps in an [unsigned int]. *)
Definition checkINFTY (q : QPOasesProblem) : option QPOasesProblem :=
  let constraints_size := to_unsigned (length (_lA q)) in
  '(lA, uA) ← clamp_loop constraints_size 0 (_lA q) (_uA q);
  let bounds_size := to_unsigned (length (_l q)) in
  '(l, u) ← clamp_loop bounds_size 0 (_l q) (_u q);
  Some (set_bounds l u (set_constraints (_A q) lA uA q)).

(** What the loops of [checkINFTY] compute, entry by entry: a lower bound
    below [-INFTY] becomes [-INFTY], an upper bound above [INFTY] becomes
    [INFTY]. *)
Definition clamp_lower (x : real_t) : real_t :=
  if real_lt x (real_opp INFTY) then real_opp INFTY else x.

Definition clamp_upper (x : real_t) : real_t :=
  if real_lt INFTY x then INFTY else x.

(** A vector after a loop of [n] iterations: only its first [n] entries
    have been looked at. *)
Definition clamp_lower_to (n : nat) (lo : VectorXd) : VectorXd :=
  (clamp_lower <$> take n lo) ++ drop n lo.

Definition clamp_upper_to (n : nat) (up : VectorXd) : VectorXd :=
  (clamp_upper <$> take n up) ++ drop n up.

(** The lower vector [lo] and the upper vector [up] after the loop that
    runs over the 32-bit size of [lo]. *)
Definition sanitised_lower (lo : VectorXd) : VectorXd :=
  clamp_lower_to (to_unsigned (length lo)) lo.

Definition sanitised_upper (lo up : VectorXd) : VectorXd :=
  clamp_upper_to (to_unsigned (length lo)) up.

(** The state [checkINFTY] leaves when no index is out of range. *)
Definition clamped (q : QPOasesProblem) : QPOasesProblem :=
  set_bounds (sanitised_lower (_l q)) (sanitised_upper (_l q) (_u q))
    (set_constraints (_A q) (sanitised_lower (_lA q))
       (sanitised_upper (_lA q) (_uA q)) q).

(** No loop of [checkINFTY] runs past the end of the upper vector. *)
Definition in_range (q : QPOasesProblem) : Prop :=
  to_unsigned (length (_lA q)) <= length (_uA q) /\
  to_unsigned (length (_l q)) <= length (_u q).

(** The block that [initProblem] (lines 124-134) and [solve] (lines 291-301)
    both run after a successful solver call: the two solution vectors are
    resized if need be and filled, the active sets are copied.  The value of
    [getPrimalSolution] is returned with the new state. *)
Definition fetch_solution (q : QPOasesProblem) : returnValue * QPOasesProblem :=
  let p := _problem q in
  let solution := resize_to (getNV p) (_solution q) in
  let dual_solution := resize_to (getNV p + getNC p) (_dual_solution q) in
  let '(success, solution) := getPrimalSolution p solution in
  let '(_, dual_solution) := getDualSolution p dual_solution in
  (success, set_solution solution dual_solution (getBounds p) (getConstraints p) q).

(** [initProblem]. *)
Definition initProblem (H0 : MatrixXd) (g : VectorXd) (A : MatrixXd)
  (lA uA l u : VectorXd) (q : QPOasesProblem) : option (bool * QPOasesProblem) :=
  let q := set_bounds l u (set_constraints A lA uA (set_task H0 g q)) in
  q ← checkINFTY q;
  if negb (length (_l q) =? length (_u q)) then Some (false, q) else
  if negb (length (_lA q) =? rows (_A q)) then Some (false, q) else
  if negb (length (_lA q) =? length (_uA q)) then Some (false, q) else
  let nWSR := _nWSR q in
  let '(val, nWSR, p) :=
    init (_H q) (_g q) (_A q) (_l q) (_u q) (_lA q) (_uA q) nWSR None
         (_problem q) in
  let q := set_problem p q in
  if negb (is_success val) then Some (false, q) else
  let '(success, q) := fetch_solution q in
  if negb (is_success success) then Some (false, q) else
  Some (true, q).

(** The branch that [updateTask] and [updateConstraints] take on a change of
    row count, after the new data are stored: a new solver object with
    [_H.cols()] variables, [_A.rows()] constraints and the Hessian type of
    the old one is given the options kept in [_opt], and [initProblem] runs
    on the stored data. *)
Definition rebuild (q : QPOasesProblem) : option (bool * QPOasesProblem) :=
  let hessian_type := getHessianType (_problem q) in
  let number_of_variables := cols (_H q) in
  let number_of_constraints := rows (_A q) in
  let q := set_problem
             (setOptions (_opt q)
                (new_SQProblem number_of_variables number_of_constraints
                               hessian_type)) q in
  initProblem (_H q) (_g q) (_A q) (_lA q) (_uA q) (_l q) (_u q) q.

(** [updateTask]. *)
Definition updateTask (H0 : MatrixXd) (g : VectorXd) (q : QPOasesProblem) :
  option (bool * QPOasesProblem) :=
  if negb (length (_g q) =? rows (_H q)) then Some (false, q) else
  if negb (cols (_H q) =? cols H0) then Some (false, q) else
  if rows (_H q) =? rows H0 then Some (true, set_task H0 g q)
  else rebuild (set_task H0 g q).

(** [updateConstraints]. *)
Definition updateConstraints (A : MatrixXd) (lA uA : VectorXd)
  (q : QPOasesProblem) : option (bool * QPOasesProblem) :=
  if negb (cols A =? cols (_H q)) then Some (false, q) else
  if negb (length lA =? rows A) then Some (false, q) else
  if negb (length lA =? length uA) then Some (false, q) else
  if rows A =? rows (_A q) then Some (true, set_constraints A lA uA q)
  else rebuild (set_constraints A lA uA q).

(** [updateBounds]; it indexes no vector, so it always returns. *)
Definition updateBounds (l u : VectorXd) (q : QPOasesProblem) :
  bool * QPOasesProblem :=
  if negb (length l =? length (_l q)) then (false, q) else
  if negb (length u =? length (_u q)) then (false, q) else
  if negb (length l =? length u) then (false, q) else
  (true, set_bounds l u q).

(** [success = success && call]: the call is made only when [success]
    holds. *)
Definition and_then (success : bool)
  (call : QPOasesProblem -> option (bool * QPOasesProblem))
  (q : QPOasesProblem) : option (bool * QPOasesProblem) :=
  if success then call q else Some (false, q).

(** [updateProblem]. *)
Definition updateProblem (H0 : MatrixXd) (g : VectorXd) (A : MatrixXd)
  (lA uA l u : VectorXd) (q : QPOasesProblem) : option (bool * QPOasesProblem) :=
  let success := true in
  '(success, q) ← and_then success (fun q => Some (updateBounds l u q)) q;
  '(success, q) ← and_then success (updateConstraints A lA uA) q;
  '(success, q) ← and_then success (updateTask H0 g) q;
  Some (success, q).

(** The three solver calls of [solve], each with the state it leaves.  The
    first is the [hotstart] on the stored data. *)
Definition try_hotstart (nWSR : Z) (q : QPOasesProblem) :
  returnValue * Z * QPOasesProblem :=
  let '(val, nWSR, p) :=
    hotstart (_H q) (_g q) (_A q) (_l q) (_u q) (_lA q) (_uA q) nWSR
             (_problem q) in
  (val, nWSR, set_problem p q).

(** The second is an [init] that is given the last primal and dual solution
    and the last active sets as its guess. *)
Definition try_warmstart (nWSR : Z) (q : QPOasesProblem) :
  returnValue * Z * QPOasesProblem :=
  let '(val, nWSR, p) :=
    init (_H q) (_g q) (_A q) (_l q) (_u q) (_lA q) (_uA q) nWSR
         (Some (_solution q, _dual_solution q, _bounds q, _constraints q))
         (_problem q) in
  (val, nWSR, set_problem p q).

(** The third is [initProblem(_H, _g, _A, _lA, _uA, _l, _u)]. *)
Definition cold_init (q : QPOasesProblem) : option (bool * QPOasesProblem) :=
  initProblem (_H q) (_g q) (_A q) (_lA q) (_uA q) (_l q) (_u q) q.

(** Lines 290-309 of [solve], reached when [val] is a success: the solution
    is fetched, and when that fails the function returns what
    [initProblem] returns. *)
Definition finish_solve (q : QPOasesProblem) : option (bool * QPOasesProblem) :=
  let '(success, q) := fetch_solution q in
  if negb (is_success success) then cold_init q else Some (true, q).

(** [solve].  The local [nWSR] is handed to [hotstart] by reference, and
    what [hotstart] leaves in it is what the warm-started [init] gets. *)
Definition solve (q : QPOasesProblem) : option (bool * QPOasesProblem) :=
  let nWSR := _nWSR q in
  q ← checkINFTY q;
  let '(val, nWSR, q) := try_hotstart nWSR q in
  if negb (is_success val) then
    let '(val, nWSR, q) := try_warmstart nWSR q in
    if negb (is_success val) then cold_init q
    else finish_solve q
  else finish_solve q.

(** What [solve] takes for granted of qpOASES: on an object on which
    [hotstart] or [init] has just returned [SUCCESSFUL_RETURN],
    [getPrimalSolution] returns [SUCCESSFUL_RETURN] too. *)
Definition primal_after_success : Prop :=
  (forall H0 g A l u lA uA nWSR p val nWSR' p',
     hotstart H0 g A l u lA uA nWSR p = (val, nWSR', p') ->
     is_success val = true ->
     forall xOpt, is_success (getPrimalSolution p' xOpt).1 = true) /\
  (forall H0 g A l u lA uA nWSR guess p val nWSR' p',
     init H0 g A l u lA uA nWSR guess p = (val, nWSR', p') ->
     is_success val = true ->
     forall xOpt, is_success (getPrimalSolution p' xOpt).1 = true).

(** The members that hold the solver's last answer and the solver itself. *)
Definition same_solver_state (q q' : QPOasesProblem) : Prop :=
  _problem q' = _problem q /\ _solution q' = _solution q /\
  _dual_solution q' = _dual_solution q /\
  _bounds q' = _bounds q /\ _constraints q' = _constraints q.

(** The configuration members. *)
Definition same_configuration (q q' : QPOasesProblem) : Prop :=
  _nWSR q' = _nWSR q /\ _epsRegularisation q' = _epsRegularisation q /\
  _opt q' = _opt q.

(** The cost function and the constraint matrix. *)
Definition same_task (q q' : QPOasesProblem) : Prop :=
  _H q' = _H q /\ _g q' = _g q /\ _A q' = _A q.

(** The four bound vectors of [q'] are those of [q] after the loops of
    [checkINFTY]. *)
Definition sanitised_from (q q' : QPOasesProblem) : Prop :=
  _lA q' = sanitised_lower (_lA q) /\
  _uA q' = sanitised_upper (_lA q) (_uA q) /\
  _l q' = sanitised_lower (_l q) /\
  _u q' = sanitised_upper (_l q) (_u q).

(** [getHessianType] and [setHessianType]. *)
Definition getHessianType_ (q : QPOasesProblem) : HessianType :=
  getHessianType (_problem q).

Definition setHessianType_ (ht : HessianType) (q : QPOasesProblem) : QPOasesProblem :=
  set_problem (setHessianType ht (_problem q)) q.

(** [getnWSR] and [setnWSR]. *)
Definition getnWSR (q : QPOasesProblem) : Z := _nWSR q.

Definition setnWSR (nWSR : Z) (q : QPOasesProblem) : QPOasesProblem :=
  mkQPOasesProblem (_problem q) (_bounds q) (_constraints q) nWSR
    (_epsRegularisation q) (_H q) (_g q) (_A q) (_lA q) (_uA q) (_l q) (_u q)
    (_solution q) (_dual_solution q) (_opt q).

(** [getSolution], [getActiveBounds] and [getActiveConstraints]. *)
Definition getSolution (q : QPOasesProblem) : VectorXd := _solution q.
Definition getActiveBounds (q : QPOasesProblem) : Bounds := _bounds q.
Definition getActiveConstraints (q : QPOasesProblem) : Constraints :=
  _constraints q.

(** [log] of the header: [H] and [g] are always added, the other members
    when they are not empty; the names end in [std::to_string(i)]. *)
Definition log (logger : MatLogger) (i : Z) (q : QPOasesProblem) : MatLogger :=
  let logger := add ("H_" +:+ pretty i) (LogMatrix (_H q)) logger in
  let logger := add ("g_" +:+ pretty i) (LogVector (_g q)) logger in
  let logger :=
    if (0 <? rows (_A q)) && (0 <? cols (_A q))
    then add ("A_" +:+ pretty i) (LogMatrix (_A q)) logger else logger in
  let logger :=
    if 0 <? length (_lA q)
    then add ("lA_" +:+ pretty i) (LogVector (_lA q)) logger else logger in
  let logger :=
    if 0 <? length (_uA q)
    then add ("uA_" +:+ pretty i) (LogVector (_uA q)) logger else logger in
  let logger :=
    if 0 <? length (_l q)
    then add ("l_" +:+ pretty i) (LogVector (_l q)) logger else logger in
  let logger :=
    if 0 <? length (_u q)
    then add ("u_" +:+ pretty i) (LogVector (_u q)) logger else logger in
  let logger :=
    if 0 <? length (_solution q)
    then add ("solution_" +:+ pretty i) (LogVector (_solution q)) logger
    else logger in
  logger.

(** The eight names [log] can add for the problem index [i]. *)
Definition log_names (i : Z) : list string :=
  ["H_" +:+ pretty i; "g_" +:+ pretty i; "A_" +:+ pretty i;
   "lA_" +:+ pretty i; "uA_" +:+ pretty i; "l_" +:+ pretty i;
   "u_" +:+ pretty i; "solution_" +:+ pretty i].

(** The invariant of the data model: as many lower as upper box bounds, and
    as many lower and upper constraint bounds as [A] has rows. *)
Definition well_shaped (q : QPOasesProblem) : Prop :=
  length (_l q) = length (_u q) /\
  length (_lA q) = rows (_A q) /\ length (_lA q) = length (_uA q).

(** The four bound vectors of [q] are [lA], [uA], [l], [u]. *)
Definition stores_bounds (lA uA l u : VectorXd) (q : QPOasesProblem) : Prop :=
  _lA q = lA /\ _uA q = uA /\ _l q = l /\ _u q = u.

(** The four bound vectors of [q] are [lA], [uA], [l], [u] as the loops of
    [checkINFTY] leave them. *)
Definition sanitised_bounds (lA uA l u : VectorXd) (q : QPOasesProblem) : Prop :=
  stores_bounds (sanitised_lower lA) (sanitised_upper lA uA)
                (sanitised_lower l) (sanitised_upper l u) q.

(** The stored answer is the one of the solver object: the active sets are
    its current ones, and the primal solution is what [getPrimalSolution]
    wrote, successfully, into a buffer of [getNV] entries. *)
Definition in_sync (q : QPOasesProblem) : Prop :=
  _bounds q = getBounds (_problem q) /\
  _constraints q = getConstraints (_problem q) /\
  exists buf, length buf = getNV (_problem q) /\
    getPrimalSolution (_problem q) buf = (SUCCESSFUL_RETURN, _solution q).

(** The states that calls of the public member functions lead to, from the
    constructor on.  A call that indexes out of range has no successor. *)
Inductive reachable : QPOasesProblem -> Prop :=
| reach_new nv nc ht eps :
    reachable (new_QPOasesProblem nv nc ht eps)
| reach_setDefaultOptions q :
    reachable q -> reachable (setDefaultOptions q)
| reach_setOptions o q :
    reachable q -> reachable (setOptions_ o q)
| reach_setHessianType ht q :
    reachable q -> reachable (setHessianType_ ht q)
| reach_setnWSR n q :
    reachable q -> reachable (setnWSR n q)
| reach_initProblem H0 g A lA uA l u q ok q' :
    reachable q -> initProblem H0 g A lA uA l u q = Some (ok, q') ->
    reachable q'
| reach_updateTask H0 g q ok q' :
    reachable q -> updateTask H0 g q = Some (ok, q') -> reachable q'
| reach_updateConstraints A lA uA q ok q' :
    reachable q -> updateConstraints A lA uA q = Some (ok, q') ->
    reachable q'
| reach_updateBounds l u q :
    reachable q -> reachable (updateBounds l u q).2
| reach_updateProblem H0 g A lA uA l u q ok q' :
    reachable q -> updateProblem H0 g A lA uA l u q = Some (ok, q') ->
    reachable q'
| reach_solve q ok q' :
    reachable q -> solve q = Some (ok, q') -> reachable q'.

End QPOasesProblem.
End QPOasesProblem.

(** ** Aggregated

    [Aggregated.cpp] and [Task.h] are not part of the sources: the header
    [src/include/wb_sot/tasks/Aggregated.h] declares the constructor and
    [update], and [src/tests/tasks/TestAggregated.cpp] exercises them. *)

Module Aggregated.
Section Aggregated.
Context {R : Real_t}.

(** A [ConstraintPtr] is a shared pointer; two pointers are the same
    constraint when they hold the same address. *)
Definition ConstraintPtr : Type := nat.

(** Modelled from the spec: the Task record of the data model ([Task.h] is
    missing): identity, [x_size], [A], [b], the gain [lambda] and the ordered
    list of attached constraints. *)
Record Task := mkTask {
  task_id : string;
  x_size : nat;
  A : MatrixXd;
  b : VectorXd;
  lambda : real_t;
  constraints : list ConstraintPtr
}.

(** The Task invariant of the data model: [A] is m x n with n the size of the
    decision variable, and [A.rows() == b.size()]. *)
Definition task_wf (t : Task) : Prop :=
  cols (A t) = x_size t /\ rows (A t) = length (b t).

(** The effective residual [lambda * b]. *)
Definition scale (k : real_t) (v : VectorXd) : VectorXd := real_mul k <$> v.

(** The [update] of the sub-tasks is virtual; it is a parameter here. *)
Variable update_task : VectorXd -> Task -> Task.

(** Modelled from the spec: vertical stacking ([Aggregated.cpp] is
    missing): the rows of [N] below the rows of [M]; matrices of different
    column counts do not stack. *)
Definition vstack (M N : MatrixXd) : option MatrixXd :=
  if cols N =? cols M then Some (mkMatrix (cols M) (row_list M ++ row_list N))
  else None.

(** Modelled from the spec: the composite [A] of an Aggregated
    ([Aggregated.cpp] is missing): the [A] of the sub-tasks stacked
    vertically in list order, starting from no rows. *)
Definition generate_A (n : nat) (tasks : list Task) : option MatrixXd :=
  foldl (fun acc t => M ← acc; vstack M (A t)) (Some (mkMatrix n [])) tasks.

(** Modelled from the spec: the composite [b] of an Aggregated
    ([Aggregated.cpp] is missing): the effective residuals [lambda_i * b_i]
    concatenated in list order. *)
Definition generate_b (tasks : list Task) : VectorXd :=
  foldl (fun acc t => acc ++ scale (lambda t) (b t)) [] tasks.

(** Modelled from the spec: appending constraints to a list, skipping every
    one whose address is in the list already ([Aggregated.cpp] is
    missing). *)
Definition append_new (acc cs : list ConstraintPtr) : list ConstraintPtr :=
  foldl (fun acc c => if decide (c ∈ acc) then acc else acc ++ [c]) acc cs.

(** Modelled from the spec: the constraint union of an Aggregated
    ([Aggregated.cpp] is missing): the own constraints in insertion order,
    then the constraints of each sub-task in sub-task order, without those
    present already. *)
Definition generate_constraints (own : list ConstraintPtr) (tasks : list Task) :
  list ConstraintPtr :=
  foldl (fun acc t => append_new acc (constraints t)) own tasks.

(** Modelled from the spec: the Aggregated record ([Aggregated.cpp] is
    missing): the sub-tasks, [x_size], the own constraints, and the derived
    id, [A], [b] and merged constraint list. *)
Record Aggregated := mkAggregated {
  _tasks : list Task;
  agg_x_size : nat;
  own_constraints : list ConstraintPtr;
  agg_id : string;
  agg_A : MatrixXd;
  agg_b : VectorXd;
  merged_constraints : list ConstraintPtr
}.

(** Modelled from the spec: recombination of given sub-tasks
    ([Aggregated.cpp] is missing). *)
Definition generateAll (tasks : list Task) (n : nat) (own : list ConstraintPtr) :
  option Aggregated :=
  M ← generate_A n tasks;
  Some (mkAggregated tasks n own
          (String.concat "plus" (task_id <$> tasks))
          M (generate_b tasks) (generate_constraints own tasks)).

(** Modelled from the spec: the constructor ([Aggregated.cpp] is missing);
    it is rejected ([None]) when a sub-task has another [x_size].  A new
    Aggregated has no own constraints. *)
Definition new_Aggregated (tasks : list Task) (n : nat) : option Aggregated :=
  if forallb (fun t => x_size t =? n) tasks then generateAll tasks n [] else None.

(** Modelled from the spec: [update(x)] ([Aggregated.cpp] is missing): every
    sub-task is updated in list order, then everything is recombined. *)
Definition update (x : VectorXd) (agg : Aggregated) : option Aggregated :=
  generateAll (update_task x <$> _tasks agg) (agg_x_size agg) (own_constraints agg).

(** Modelled from the spec: the three constraint queries ([Aggregated.cpp]
    is missing). *)
Definition getConstraints (agg : Aggregated) : list ConstraintPtr :=
  merged_constraints agg.

Definition getOwnConstraints (agg : Aggregated) : list ConstraintPtr :=
  own_constraints agg.

Definition getAggregatedConstraints (agg : Aggregated) : list ConstraintPtr :=
  drop (length (own_constraints agg)) (merged_constraints agg).

End Aggregated.
End Aggregated.

(** ** The helper of the convex hull test
    ([src/src/tests/wb_sot/bounds/velocity/TestConvexHull.cpp])

    [getPointsFromConstraints] also adds, subtracts and divides. *)

Class Real_arith {R : Real_t} := {
  real_one : real_t;
  real_add : real_t -> real_t -> real_t;
  real_sub : real_t -> real_t -> real_t;
  real_div : real_t -> real_t -> real_t
}.

#[export] Instance Double_arith : Real_arith (R := Double) := {|
  real_one := 1%float;
  real_add := PrimFloat.add;
  real_sub := PrimFloat.sub;
  real_div := PrimFloat.div
|}.

Module TestConvexHull.
Section TestConvexHull.
Context {R : Real_t} {F : Real_arith}.

(** [KDL::Vector(x, y, z)]. *)
Definition KDLVector : Type := real_t * real_t * real_t.

(** [M(r, c)]; the access is not checked. *)
Definition coeff (M : MatrixXd) (r c : nat) : option real_t :=
  row ← row_list M !! r; row !! c.

(** [unsigned int nRects = A_ch.rows()]: the row count in 32 bits. *)
Definition nRects_of (A_ch : MatrixXd) : nat :=
  Z.to_nat (Z.of_nat (rows A_ch) mod 2 ^ 32).

(** [unsigned int i = (j-1)%nRects]: the subtraction is in 32 bits and wraps
    around for [j = 0]. *)
Definition previous_rect (j nRects : nat) : nat :=
  Z.to_nat (((Z.of_nat j - 1) mod 2 ^ 32) mod Z.of_nat nRects).

(** The intersection of the lines [a_i x + b_i y + c_i = 0] and
    [a_j x + b_j y + c_j = 0], as the loop body computes it. *)
Definition intersection (a_i b_i c_i a_j b_j c_j : real_t) : KDLVector :=
  let x := real_div (real_add (real_mul (real_opp b_j) c_i) (real_mul b_i c_j))
                    (real_sub (real_mul a_i b_j) (real_mul b_i a_j)) in
  let y := real_div (real_add (real_mul (real_opp a_i) c_j) (real_mul c_i a_j))
                    (real_sub (real_mul a_i b_j) (real_mul b_i a_j)) in
  (x, y, real_zero).

(** The loop of [getPointsFromConstraints], with [left] iterations to go
    from [j] on. *)
Fixpoint points_loop (left j nRects : nat) (A_ch : MatrixXd) (b_ch : VectorXd)
  (points : list KDLVector) : option (list KDLVector) :=
  match left with
  | 0 => Some points
  | S left' =>
      let i := previous_rect j nRects in
      a_i ← coeff A_ch i 0;
      b_i ← coeff A_ch i 1;
      bch_i ← b_ch !! i;
      let c_i := real_mul (real_opp real_one) bch_i in
      a_j ← coeff A_ch j 0;
      b_j ← coeff A_ch j 1;
      bch_j ← b_ch !! j;
      let c_j := real_mul (real_opp real_one) bch_j in
      points_loop left' (S j) nRects A_ch b_ch
        (points ++ [intersection a_i b_i c_i a_j b_j c_j])
  end.

(** [getPointsFromConstraints]. *)
Definition getPointsFromConstraints (A_ch : MatrixXd) (b_ch : VectorXd)
  (points : list KDLVector) : option (list KDLVector) :=
  let nRects := nRects_of A_ch in
  points_loop nRects 0 nRects A_ch b_ch points.

End TestConvexHull.
End TestConvexHull.

(** ** A solver to run the model on

    A stand-in for qpOASES.  Whether a hotstart, a warm-started [init] and a
    cold [init] converge is fixed in advance; the rest follows qpOASES: the
    object keeps a status, a hotstart on an object that was never
    initialised fails, and the solution can be fetched exactly when the
    last call has solved the problem.  The object also records its
    dimensions, its Hessian type, its options and the calls made on it. *)

Module Stub.

Inductive Call := Hotstart | InitWarm | InitCold.

Inductive Status := NotInitialised | Unsolved | Solved.

Record Answers := mkAnswers {
  hot_ok : bool;
  warm_ok : bool;
  cold_ok : bool
}.

Record Problem := mkProblem {
  nV : nat;
  nC : nat;
  hessian : nat;
  options : nat;
  status : Status;
  calls : list Call
}.

Definition answer (ok : bool) : returnValue :=
  if ok then SUCCESSFUL_RETURN else RET_ERROR 1.

(** The object after the call [c] that ended with the status [st]. *)
Definition called (c : Call) (st : Status) (p : Problem) : Problem :=
  mkProblem (nV p) (nC p) (hessian p) (options p) st (calls p ++ [c]).

Definition run_init (c : Call) (ok : bool) (nWSR : Z) (p : Problem) :
  returnValue * Z * Problem :=
  (answer ok, nWSR, called c (if ok then Solved else NotInitialised) p).

Definition run_hotstart (ok : bool) (nWSR : Z) (p : Problem) :
  returnValue * Z * Problem :=
  match status p with
  | NotInitialised => (RET_ERROR 2, nWSR, called Hotstart NotInitialised p)
  | _ => (answer ok, nWSR, called Hotstart (if ok then Solved else Unsolved) p)
  end.

Definition fetch (fill : float) (p : Problem) (buffer : list float) :
  returnValue * list float :=
  match status p with
  | Solved => (SUCCESSFUL_RETURN, replicate (length buffer) fill)
  | _ => (RET_ERROR 3, buffer)
  end.

Definition solver (a : Answers) : qpOASES (R := Double) := {|
  SQProblem := Problem;
  Options := nat;
  Bounds := list Call;
  Constraints := list Call;
  HessianType := nat;
  new_SQProblem := fun nv nc ht => mkProblem nv nc ht 0 NotInitialised [];
  new_Options := 0;
  new_Bounds := [];
  new_Constraints := [];
  mpc_options := fun _ => 1;
  setOptions := fun o p =>
    mkProblem (nV p) (nC p) (hessian p) o (status p) (calls p);
  getHessianType := hessian;
  setHessianType := fun ht p =>
    mkProblem (nV p) (nC p) ht (options p) (status p) (calls p);
  getNV := nV;
  getNC := nC;
  init := fun _ _ _ _ _ _ _ nWSR guess p =>
    match guess with
    | None => run_init InitCold (cold_ok a) nWSR p
    | Some _ => run_init InitWarm (warm_ok a) nWSR p
    end;
  hotstart := fun _ _ _ _ _ _ _ nWSR p => run_hotstart (hot_ok a) nWSR p;
  getPrimalSolution := fetch 1%float;
  getDualSolution := fetch 0%float;
  getBounds := calls;
  getConstraints := calls
|}.

End Stub.

(** ** Concrete problems

    A problem in two variables with one general constraint, over [double],
    run on the stand-in solver. *)

Module Examples.
Import QPOasesProblem.
Local Open Scope float_scope.

Definition all_ok : Stub.Answers := Stub.mkAnswers true true true.

(** No cold [init] converges. *)
Definition cold_fails : Stub.Answers := Stub.mkAnswers true true false.

(** Hotstarts do not converge; warm-started and cold [init]s do. *)
Definition hot_fails : Stub.Answers := Stub.mkAnswers false true true.

(** Only a cold [init] converges. *)
Definition only_cold : Stub.Answers := Stub.mkAnswers false false true.

Definition H_id : MatrixXd (R := Double) := mkMatrix 2 [[1; 0]; [0; 1]].
Definition H_twice : MatrixXd (R := Double) := mkMatrix 2 [[2; 0]; [0; 2]].
Definition H_tall : MatrixXd (R := Double) := mkMatrix 2 [[1; 0]; [0; 1]; [1; 1]].
Definition A_row : MatrixXd (R := Double) := mkMatrix 2 [[1; 1]].

Definition A_pair : MatrixXd (R := Double) := mkMatrix 2 [[1; 1]; [1; -1]].

(** The state the constructor leaves. *)
Definition fresh (a : Stub.Answers) : QPOasesProblem (Q := Stub.solver a) :=
  new_QPOasesProblem (Q := Stub.solver a) 2 1 0%nat 200.

(** The state after a call, or the state before it when the call ran out of
    range. *)
Definition state_after {a : Stub.Answers}
  (r : option (bool * QPOasesProblem (Q := Stub.solver a)))
  (q : QPOasesProblem (Q := Stub.solver a)) : QPOasesProblem (Q := Stub.solver a) :=
  from_option snd q r.

(** A well-formed problem, initialised. *)
Definition loaded (a : Stub.Answers) : QPOasesProblem (Q := Stub.solver a) :=
  state_after (initProblem H_id [1; 1] A_row [-1] [1] [-5; -5] [5; 5] (fresh a))
              (fresh a).

(** An [initProblem] with one lower and two upper box bounds, on the
    initialised problem. *)
Definition after_bad_bounds (a : Stub.Answers) : QPOasesProblem (Q := Stub.solver a) :=
  state_after (initProblem H_twice [3; 3] A_row [-1] [1] [0] [5; 5] (loaded a))
              (loaded a).


(** Bounds beyond the far side of [INFTY]: lower bounds above [INFTY], upper
    bounds below [-INFTY]. *)
Definition far_bounds (a : Stub.Answers) : QPOasesProblem (Q := Stub.solver a) :=
  set_bounds (Q := Stub.solver a) [2e20; -2e20] [-2e20; 2e20]
    (set_constraints (Q := Stub.solver a) A_row [2e20] [-2e20] (loaded a)).

(** Two tasks over two variables that share the constraint at address 7. *)
Definition T_posture : Aggregated.Task (R := Double) :=
  Aggregated.mkTask "posture" 2 H_id [1; 2] 0.5 [7%nat; 8%nat].

Definition T_sum : Aggregated.Task (R := Double) :=
  Aggregated.mkTask "sum" 2 A_row [4] 1 [9%nat; 7%nat].

(** An [update] that takes [x] as the new residual when it has the size of
    the old one. *)
Definition retarget (x : list float) (t : Aggregated.Task (R := Double)) :
  Aggregated.Task (R := Double) :=
  Aggregated.mkTask (Aggregated.task_id t) (Aggregated.x_size t)
    (Aggregated.A t)
    (if (length x =? length (Aggregated.b t))%nat then x else Aggregated.b t)
    (Aggregated.lambda t) (Aggregated.constraints t).

(** The four sides of the unit square, as [a x + b y <= c]. *)
Definition A_square : MatrixXd (R := Double) :=
  mkMatrix 2 [[1; 0]; [0; 1]; [-1; 0]; [0; -1]].

(** A triangle. *)
Definition A_triangle : MatrixXd (R := Double) :=
  mkMatrix 2 [[0; -1]; [1; 1]; [-1; 1]].

End Examples.

(** * Properties *)

(** ** The sanitisation loops *)

Module CheckINFTYFacts.
Import QPOasesProblem.
Section CheckINFTYFacts.
Context {R : Real_t} {Q : qpOASES}.

Lemma clamp_lower_idemp x : clamp_lower (clamp_lower x) = clamp_lower x.
Proof.
  unfold clamp_lower. destruct (real_lt x (real_opp INFTY)) eqn:E.
  - by rewrite neg_INFTY_not_lt.
  - by rewrite E.
Qed.

Lemma clamp_upper_idemp x : clamp_upper (clamp_upper x) = clamp_upper x.
Proof.
  unfold clamp_upper. destruct (real_lt INFTY x) eqn:E.
  - by rewrite INFTY_not_gt.
  - by rewrite E.
Qed.

Lemma clamp_lower_not_below x : real_lt (clamp_lower x) (real_opp INFTY) = false.
Proof.
  unfold clamp_lower. destruct (real_lt x (real_opp INFTY)) eqn:E; [|done].
  apply neg_INFTY_not_lt.
Qed.

Lemma clamp_upper_not_above x : real_lt INFTY (clamp_upper x) = false.
Proof.
  unfold clamp_upper. destruct (real_lt INFTY x) eqn:E; [|done].
  apply INFTY_not_gt.
Qed.

(** One iteration writes [clamp_lower lo[i]] to [lo[i]]. *)
Lemma step_lower (lo : VectorXd) i x :
  lo !! i = Some x ->
  (if real_lt x (real_opp INFTY) then <[i := real_opp INFTY]> lo else lo)
  = <[i := clamp_lower x]> lo.
Proof.
  intros Hi. unfold clamp_lower.
  destruct (real_lt x (real_opp INFTY)); [done|]. by rewrite list_insert_id.
Qed.

Lemma step_upper (up : VectorXd) i x :
  up !! i = Some x ->
  (if real_lt INFTY x then <[i := INFTY]> up else up) = <[i := clamp_upper x]> up.
Proof.
  intros Hi. unfold clamp_upper.
  destruct (real_lt INFTY x); [done|]. by rewrite list_insert_id.
Qed.

(** The loop invariant: [n] iterations from index [i] change exactly the
    entries [i .. i+n-1] of both vectors. *)
Lemma clamp_loop_lookup n : forall i (lo up lo' up' : VectorXd),
  clamp_loop n i lo up = Some (lo', up') ->
  forall j,
    lo' !! j = (if decide (i <= j < i + n) then clamp_lower <$> lo !! j else lo !! j) /\
    up' !! j = (if decide (i <= j < i + n) then clamp_upper <$> up !! j else up !! j).
Proof.
  induction n as [|n IH]; intros i lo up lo' up' Hloop j; simpl in Hloop.
  - injection Hloop as <- <-. case_decide; [lia|done].
  - destruct (lo !! i) as [x|] eqn:Hx; simpl in Hloop; [|done].
    destruct (up !! i) as [y|] eqn:Hy; simpl in Hloop; [|done].
    rewrite (step_lower _ _ _ Hx), (step_upper _ _ _ Hy) in Hloop.
    destruct (IH _ _ _ _ _ Hloop j) as [Hlo Hup]. rewrite Hlo, Hup.
    destruct (decide (j = i)) as [->|Hne].
    + rewrite !list_lookup_insert_eq by eauto using lookup_lt_Some.
      rewrite Hx, Hy. repeat case_decide; try lia; done.
    + rewrite !list_lookup_insert_ne by done.
      repeat case_decide; try lia; done.
Qed.

Lemma clamp_loop_length n : forall i (lo up lo' up' : VectorXd),
  clamp_loop n i lo up = Some (lo', up') ->
  length lo' = length lo /\ length up' = length up.
Proof.
  induction n as [|n IH]; intros i lo up lo' up' Hloop; simpl in Hloop.
  - by injection Hloop as <- <-.
  - destruct (lo !! i) as [x|] eqn:Hx; simpl in Hloop; [|done].
    destruct (up !! i) as [y|] eqn:Hy; simpl in Hloop; [|done].
    rewrite (step_lower _ _ _ Hx), (step_upper _ _ _ Hy) in Hloop.
    apply IH in Hloop. by rewrite !length_insert in Hloop.
Qed.

(** The loop runs to its end when both vectors have the entries it visits. *)
Lemma clamp_loop_is_Some n : forall i (lo up : VectorXd),
  i + n <= length lo -> i + n <= length up ->
  is_Some (clamp_loop n i lo up).
Proof.
  induction n as [|n IH]; intros i lo up Hlo Hup; simpl; [by eexists|].
  destruct (lookup_lt_is_Some_2 lo i) as [x Hx]; [lia|].
  destruct (lookup_lt_is_Some_2 up i) as [y Hy]; [lia|].
  rewrite Hx, Hy; simpl.
  rewrite (step_lower _ _ _ Hx), (step_upper _ _ _ Hy).
  apply IH; rewrite length_insert; lia.
Qed.

(** It reads past the end of the upper vector when that one is shorter. *)
Lemma clamp_loop_Some_range n : forall i (lo up : VectorXd) r,
  clamp_loop n i lo up = Some r -> n = 0 \/ i + n <= length up.
Proof.
  induction n as [|n IH]; intros i lo up r Hloop; simpl in Hloop; [by left|].
  right.
  destruct (lo !! i) as [x|] eqn:Hx; simpl in Hloop; [|done].
  destruct (up !! i) as [y|] eqn:Hy; simpl in Hloop; [|done].
  rewrite (step_upper _ _ _ Hy) in Hloop.
  apply lookup_lt_Some in Hy.
  destruct (IH _ _ _ _ Hloop) as [->|Hle]; [lia|].
  rewrite length_insert in Hle. lia.
Qed.

(** The 32-bit size of a vector is never more than its size, and is its
    size below 2^32. *)
Lemma to_unsigned_le n : to_unsigned n <= n.
Proof.
  unfold to_unsigned.
  pose proof (Z.mod_pos_bound (Z.of_nat n) (2 ^ 32) ltac:(lia)).
  pose proof (Z.mod_le (Z.of_nat n) (2 ^ 32) ltac:(lia) ltac:(lia)). lia.
Qed.

Lemma to_unsigned_small n : (Z.of_nat n < 2 ^ 32)%Z -> to_unsigned n = n.
Proof.
  intros Hn. unfold to_unsigned. rewrite Z.mod_small by lia. lia.
Qed.

Lemma lookup_clamp_lower_to n (lo : VectorXd) j :
  clamp_lower_to n lo !! j
  = if decide (j < n) then clamp_lower <$> lo !! j else lo !! j.
Proof.
  unfold clamp_lower_to. destruct (decide (n <= length lo)) as [Hn|Hn].
  - case_decide.
    + rewrite lookup_app_l by (rewrite length_fmap, length_take; lia).
      by rewrite list_lookup_fmap, lookup_take_lt.
    + rewrite lookup_app_r by (rewrite length_fmap, length_take; lia).
      rewrite length_fmap, length_take, lookup_drop. f_equal. lia.
  - rewrite take_ge, drop_ge, app_nil_r, list_lookup_fmap by lia.
    case_decide; [done|].
    rewrite (lookup_ge_None_2 lo j) by lia. done.
Qed.

Lemma lookup_clamp_upper_to n (up : VectorXd) j :
  clamp_upper_to n up !! j
  = if decide (j < n) then clamp_upper <$> up !! j else up !! j.
Proof.
  unfold clamp_upper_to. destruct (decide (n <= length up)) as [Hn|Hn].
  - case_decide.
    + rewrite lookup_app_l by (rewrite length_fmap, length_take; lia).
      by rewrite list_lookup_fmap, lookup_take_lt.
    + rewrite lookup_app_r by (rewrite length_fmap, length_take; lia).
      rewrite length_fmap, length_take, lookup_drop. f_equal. lia.
  - rewrite take_ge, drop_ge, app_nil_r, list_lookup_fmap by lia.
    case_decide; [done|].
    rewrite (lookup_ge_None_2 up j) by lia. done.
Qed.

(** A loop of [n] iterations from index 0, [n] being at most the size of
    the lower vector. *)
Lemma clamp_loop_closed n (lo up : VectorXd) :
  n <= length lo ->
  clamp_loop n 0 lo up
  = if decide (n <= length up)
    then Some (clamp_lower_to n lo, clamp_upper_to n up)
    else None.
Proof.
  intros Hn. case_decide as Hle.
  - destruct (clamp_loop_is_Some n 0 lo up) as [[lo' up'] Hloop]; [lia..|].
    rewrite Hloop. f_equal. f_equal; apply list_eq; intros j;
      destruct (clamp_loop_lookup _ _ _ _ _ _ Hloop j) as [Hlo Hup].
    + rewrite Hlo, lookup_clamp_lower_to.
      repeat case_decide; try lia; done.
    + rewrite Hup, lookup_clamp_upper_to.
      repeat case_decide; try lia; done.
  - destruct (clamp_loop n 0 lo up) as [r|] eqn:Hloop; [|done].
    apply clamp_loop_Some_range in Hloop. lia.
Qed.

(** The whole loop of [checkINFTY] over one pair of vectors. *)
Lemma clamp_loop_full (lo up : VectorXd) :
  clamp_loop (to_unsigned (length lo)) 0 lo up
  = if decide (to_unsigned (length lo) <= length up)
    then Some (sanitised_lower lo, sanitised_upper lo up)
    else None.
Proof. apply clamp_loop_closed, to_unsigned_le. Qed.

(** [checkINFTY] in closed form. *)
Lemma checkINFTY_clamped q :
  in_range q -> checkINFTY q = Some (clamped q).
Proof.
  intros [HA Hb]. unfold checkINFTY.
  rewrite !clamp_loop_full, !decide_True by done. done.
Qed.

Lemma checkINFTY_Some q q' :
  checkINFTY q = Some q' -> in_range q /\ q' = clamped q.
Proof.
  unfold checkINFTY. rewrite !clamp_loop_full. intros Hq.
  destruct (decide (to_unsigned (length (_lA q)) <= length (_uA q))); [|done].
  destruct (decide (to_unsigned (length (_l q)) <= length (_u q))); [|done].
  simpl in Hq. split; [done|]. by injection Hq as <-.
Qed.

Lemma checkINFTY_out_of_range q :
  ~ in_range q -> checkINFTY q = None.
Proof.
  intros Hq. destruct (checkINFTY q) as [q'|] eqn:E; [|done].
  by apply checkINFTY_Some in E as [? _].
Qed.

Lemma length_clamp_lower_to n (lo : VectorXd) :
  length (clamp_lower_to n lo) = length lo.
Proof.
  unfold clamp_lower_to.
  rewrite length_app, length_fmap, length_take, length_drop. lia.
Qed.

Lemma length_clamp_upper_to n (up : VectorXd) :
  length (clamp_upper_to n up) = length up.
Proof.
  unfold clamp_upper_to.
  rewrite length_app, length_fmap, length_take, length_drop. lia.
Qed.

Lemma length_sanitised_lower (lo : VectorXd) :
  length (sanitised_lower lo) = length lo.
Proof. apply length_clamp_lower_to. Qed.

Lemma length_sanitised_upper (lo up : VectorXd) :
  length (sanitised_upper lo up) = length up.
Proof. apply length_clamp_upper_to. Qed.

Lemma clamp_lower_to_idemp n (lo : VectorXd) :
  clamp_lower_to n (clamp_lower_to n lo) = clamp_lower_to n lo.
Proof.
  apply list_eq; intros j. rewrite !lookup_clamp_lower_to.
  case_decide; [|done].
  destruct (lo !! j); simpl; [|done]. by rewrite clamp_lower_idemp.
Qed.

Lemma clamp_upper_to_idemp n (up : VectorXd) :
  clamp_upper_to n (clamp_upper_to n up) = clamp_upper_to n up.
Proof.
  apply list_eq; intros j. rewrite !lookup_clamp_upper_to.
  case_decide; [|done].
  destruct (up !! j); simpl; [|done]. by rewrite clamp_upper_idemp.
Qed.

Lemma sanitised_lower_idemp (lo : VectorXd) :
  sanitised_lower (sanitised_lower lo) = sanitised_lower lo.
Proof.
  unfold sanitised_lower at 1. rewrite length_sanitised_lower.
  apply clamp_lower_to_idemp.
Qed.

Lemma sanitised_upper_idemp (lo up : VectorXd) :
  sanitised_upper (sanitised_lower lo) (sanitised_upper lo up)
  = sanitised_upper lo up.
Proof.
  unfold sanitised_upper at 1. rewrite length_sanitised_lower.
  apply clamp_upper_to_idemp.
Qed.

(** Below 2^32 entries the loop visits the whole lower vector. *)
Lemma sanitised_lower_small (lo : VectorXd) :
  (Z.of_nat (length lo) < 2 ^ 32)%Z -> sanitised_lower lo = clamp_lower <$> lo.
Proof.
  intros Hn. unfold sanitised_lower, clamp_lower_to.
  rewrite to_unsigned_small by done.
  by rewrite firstn_all, drop_all, app_nil_r.
Qed.

Lemma sanitised_upper_small (lo up : VectorXd) :
  (Z.of_nat (length lo) < 2 ^ 32)%Z ->
  sanitised_upper lo up = clamp_upper_to (length lo) up.
Proof.
  intros Hn. unfold sanitised_upper. by rewrite to_unsigned_small.
Qed.

Lemma in_range_clamped q : in_range q -> in_range (clamped q).
Proof.
  unfold in_range; simpl.
  rewrite !length_sanitised_lower, !length_sanitised_upper. done.
Qed.

(** Sanitising twice is sanitising once. *)
Lemma clamped_idemp q : clamped (clamped q) = clamped q.
Proof.
  unfold clamped; simpl.
  by rewrite !sanitised_lower_idemp, !sanitised_upper_idemp.
Qed.

End CheckINFTYFacts.
End CheckINFTYFacts.

(** ** The back-end operations *)

Module QPOasesProblemFacts.
Import QPOasesProblem CheckINFTYFacts.
Section QPOasesProblemFacts.
Context {R : Real_t} {Q : qpOASES}.

Implicit Types q : QPOasesProblem.

(** [fetch_solution] writes the two solution vectors and the two active
    sets, nothing else. *)
Lemma fetch_solution_frame q val q' :
  fetch_solution q = (val, q') ->
  _problem q' = _problem q /\
  _H q' = _H q /\ _g q' = _g q /\ _A q' = _A q /\
  _lA q' = _lA q /\ _uA q' = _uA q /\ _l q' = _l q /\ _u q' = _u q /\
  same_configuration q q'.
Proof.
  unfold fetch_solution.
  destruct (getPrimalSolution _ _) as [s x], (getDualSolution _ _) as [s' y].
  intros [= <- <-]. by repeat split.
Qed.

(** What [initProblem] stores: its arguments, sanitised.  This holds
    whatever it returns. *)
Lemma initProblem_stores H0 g A lA uA l u q ok q' :
  initProblem H0 g A lA uA l u q = Some (ok, q') ->
  (to_unsigned (length lA) <= length uA /\
   to_unsigned (length l) <= length u) /\
  _H q' = H0 /\ _g q' = g /\ _A q' = A /\
  _lA q' = sanitised_lower lA /\ _uA q' = sanitised_upper lA uA /\
  _l q' = sanitised_lower l /\ _u q' = sanitised_upper l u /\
  same_configuration q q'.
Proof.
  unfold initProblem.
  destruct (checkINFTY _) as [q1|] eqn:Hq1; simpl; [|done].
  apply checkINFTY_Some in Hq1 as [Hrange ->].
  repeat match goal with
  | |- context [negb (?a =? ?b)] => destruct (a =? b); simpl
  end;
  try (intros [= <- <-]; split; [exact Hrange|by repeat split]).
  destruct (init _ _ _ _ _ _ _ _ _ _) as [[val n] p]; simpl.
  destruct (is_success val); simpl.
  - destruct (fetch_solution _) as [s q2] eqn:Hf.
    apply fetch_solution_frame in Hf; simpl in Hf.
    destruct Hf as (_ & ? & ? & ? & ? & ? & ? & ? & (? & ? & ?)).
    destruct (is_success s); simpl; intros [= <- <-];
      (split; [exact Hrange|by repeat split]).
  - intros [= <- <-]. split; [exact Hrange|by repeat split].
Qed.

(** [initProblem] returns whenever the loops of [checkINFTY] stay in
    range. *)
Lemma initProblem_returns H0 g A lA uA l u q :
  to_unsigned (length lA) <= length uA -> to_unsigned (length l) <= length u ->
  is_Some (initProblem H0 g A lA uA l u q).
Proof.
  intros HA Hb. unfold initProblem.
  rewrite checkINFTY_clamped by done. simpl.
  repeat match goal with
  | |- context [negb (?a =? ?b)] => destruct (a =? b); simpl
  end; try by eexists.
  destruct (init _ _ _ _ _ _ _ _ _ _) as [[val n] p]; simpl.
  destruct (is_success val); simpl; [|by eexists].
  destruct (fetch_solution _) as [s q2].
  destruct (is_success s); simpl; by eexists.
Qed.




(** What [updateProblem] returns, step by step. *)
Lemma updateProblem_unfold H0 g A lA uA l u q :
  updateProblem H0 g A lA uA l u q =
  match updateBounds l u q with
  | (false, qb) => Some (false, qb)
  | (true, qb) =>
      match updateConstraints A lA uA qb with
      | None => None
      | Some (false, qc) => Some (false, qc)
      | Some (true, qc) => updateTask H0 g qc
      end
  end.
Proof.
  unfold updateProblem, and_then; simpl.
  destruct (updateBounds l u q) as [[] qb]; simpl; [|done].
  destruct (updateConstraints A lA uA qb) as [[[] qc]|]; simpl; [|done..].
  by destruct (updateTask H0 g qc) as [[[] qt]|].
Qed.

(** C5: [updateProblem] runs [updateBounds], then [updateConstraints] on
    the state that left, then [updateTask] on the state that left.  When
    [updateBounds] fails the result is failure with the state
    [updateBounds] left; when [updateConstraints] fails the result is
    failure with the state [updateConstraints] left; and it returns success
    exactly when all three succeed. *)
Theorem updateProblem_order H0 g A lA uA l u q :
  (forall qb, updateBounds l u q = (false, qb) ->
     updateProblem H0 g A lA uA l u q = Some (false, qb)) /\
  (forall qb qc, updateBounds l u q = (true, qb) ->
     updateConstraints A lA uA qb = Some (false, qc) ->
     updateProblem H0 g A lA uA l u q = Some (false, qc)) /\
  (forall qb qc, updateBounds l u q = (true, qb) ->
     updateConstraints A lA uA qb = Some (true, qc) ->
     updateProblem H0 g A lA uA l u q = updateTask H0 g qc) /\
  (forall q', updateProblem H0 g A lA uA l u q = Some (true, q') <->
     exists qb qc, updateBounds l u q = (true, qb) /\
       updateConstraints A lA uA qb = Some (true, qc) /\
       updateTask H0 g qc = Some (true, q')).
Proof.
  rewrite updateProblem_unfold. split; [|split; [|split]].
  - by intros qb ->.
  - by intros qb qc -> ->.
  - by intros qb qc -> ->.
  - intros q'. split.
    + destruct (updateBounds l u q) as [[] qb]; [|done].
      destruct (updateConstraints A lA uA qb) as [[[] qc]|] eqn:Hc; [|done..].
      intros Ht. by exists qb, qc.
    + by intros (qb & qc & -> & -> & ->).
Qed.

(** [solve] once the sanitising loops are through. *)
Lemma solve_unfold q :
  in_range q ->
  solve q =
  let '(v1, n1, qh) := try_hotstart (_nWSR q) (clamped q) in
  if is_success v1 then finish_solve qh
  else let '(v2, n2, qw) := try_warmstart n1 qh in
       if is_success v2 then finish_solve qw else cold_init qw.
Proof.
  intros Hq. unfold solve. rewrite checkINFTY_clamped by done. simpl.
  destruct (try_hotstart _ _) as [[v1 n1] qh].
  destruct (is_success v1); simpl; [done|].
  destruct (try_warmstart _ _) as [[v2 n2] qw].
  by destruct (is_success v2).
Qed.

Lemma try_hotstart_frame n q v n' q' :
  try_hotstart n q = (v, n', q') ->
  same_task q q' /\ same_configuration q q' /\
  _lA q' = _lA q /\ _uA q' = _uA q /\ _l q' = _l q /\ _u q' = _u q.
Proof.
  unfold try_hotstart. destruct (hotstart _ _ _ _ _ _ _ _ _) as [[v0 n0] p].
  intros [= <- <- <-]. by repeat split.
Qed.

Lemma try_warmstart_frame n q v n' q' :
  try_warmstart n q = (v, n', q') ->
  same_task q q' /\ same_configuration q q' /\
  _lA q' = _lA q /\ _uA q' = _uA q /\ _l q' = _l q /\ _u q' = _u q.
Proof.
  unfold try_warmstart. destruct (init _ _ _ _ _ _ _ _ _ _) as [[v0 n0] p].
  intros [= <- <- <-]. by repeat split.
Qed.

(** The cold fall-back returns, and stores the data it started from,
    sanitised. *)
Lemma cold_init_frame q :
  in_range q ->
  exists ok q', cold_init q = Some (ok, q') /\
    same_task q q' /\ same_configuration q q' /\ sanitised_from q q'.
Proof.
  intros [HA Hb]. unfold cold_init.
  destruct (initProblem_returns (_H q) (_g q) (_A q) (_lA q) (_uA q) (_l q)
              (_u q) q HA Hb) as [[ok q'] Hinit].
  exists ok, q'. split; [done|].
  apply initProblem_stores in Hinit.
  destruct Hinit as (_ & ? & ? & ? & ? & ? & ? & ? & (? & ? & ?)).
  by repeat split.
Qed.

Lemma finish_solve_cases q :
  finish_solve q =
  if is_success (fetch_solution q).1 then Some (true, (fetch_solution q).2)
  else cold_init (fetch_solution q).2.
Proof.
  unfold finish_solve. destruct (fetch_solution q) as [s q']; simpl.
  by destruct (is_success s).
Qed.

Lemma finish_solve_frame q :
  in_range q ->
  exists ok q', finish_solve q = Some (ok, q') /\
    same_task q q' /\ same_configuration q q' /\ sanitised_from q q'
    \/ finish_solve q = Some (ok, q') /\
       same_task q q' /\ same_configuration q q' /\
       _lA q' = _lA q /\ _uA q' = _uA q /\ _l q' = _l q /\ _u q' = _u q.
Proof.
  intros Hq. rewrite finish_solve_cases.
  destruct (fetch_solution q) as [s qf] eqn:Hf; simpl.
  apply fetch_solution_frame in Hf.
  destruct Hf as (_ & HH & Hg & HA & HlA & HuA & Hl & Hu & Hn & He & Ho).
  destruct (is_success s).
  - exists true, qf. right. by repeat split.
  - destruct (cold_init_frame qf) as (ok & q' & Hc & (? & ? & ?) & (? & ? & ?) & Hs).
    { unfold in_range. rewrite HlA, HuA, Hl, Hu. exact Hq. }
    exists ok, q'. left. split; [done|].
    unfold sanitised_from in *. rewrite HlA, HuA, Hl, Hu in Hs.
    repeat split; try congruence; apply Hs.
Qed.

(** A state that carries the sanitised bounds of [q] still carries them
    after being sanitised again. *)
Lemma sanitised_again q qs q' :
  _lA qs = _lA (clamped q) -> _uA qs = _uA (clamped q) ->
  _l qs = _l (clamped q) -> _u qs = _u (clamped q) ->
  sanitised_from qs q' -> sanitised_from q q'.
Proof.
  unfold sanitised_from. simpl. intros -> -> -> -> (-> & -> & -> & ->).
  by rewrite !sanitised_lower_idemp, !sanitised_upper_idemp.
Qed.

Lemma finish_solve_after_clamped q qs :
  in_range q ->
  same_task (clamped q) qs -> same_configuration (clamped q) qs ->
  _lA qs = _lA (clamped q) -> _uA qs = _uA (clamped q) ->
  _l qs = _l (clamped q) -> _u qs = _u (clamped q) ->
  exists ok q', finish_solve qs = Some (ok, q') /\
    same_task q q' /\ same_configuration q q' /\ sanitised_from q q'.
Proof.
  intros Hq (HH & Hg & HA) (Hn & He & Ho) HlA HuA Hl Hu.
  assert (in_range qs) as Hqs.
  { unfold in_range. rewrite HlA, HuA, Hl, Hu. by apply in_range_clamped. }
  destruct (finish_solve_frame qs Hqs) as (ok & q' & [Hcase|Hcase]);
    exists ok, q'.
  - destruct Hcase as (Hf & (? & ? & ?) & (? & ? & ?) & Hs).
    split; [done|]. simpl in *.
    split; [repeat split; congruence|].
    split; [repeat split; congruence|].
    by eapply sanitised_again.
  - destruct Hcase as (Hf & (? & ? & ?) & (? & ? & ?) & ? & ? & ? & ?).
    split; [done|]. simpl in *.
    split; [repeat split; congruence|].
    split; [repeat split; congruence|].
    unfold sanitised_from. repeat split; congruence.
Qed.

(** [solve] returns on a state in range, with the data sanitised. *)
Lemma solve_sanitised q :
  in_range q ->
  exists ok q', solve q = Some (ok, q') /\
    same_task q q' /\ same_configuration q q' /\ sanitised_from q q'.
Proof.
  intros Hq. rewrite solve_unfold by done.
  destruct (try_hotstart _ _) as [[v1 n1] qh] eqn:Hh.
  apply try_hotstart_frame in Hh as (Ht & Hc & HlA & HuA & Hl & Hu).
  destruct (is_success v1).
  { by apply finish_solve_after_clamped. }
  destruct (try_warmstart _ _) as [[v2 n2] qw] eqn:Hw.
  apply try_warmstart_frame in Hw
    as ((? & ? & ?) & (? & ? & ?) & HlA' & HuA' & Hl' & Hu').
  destruct Ht as (? & ? & ?), Hc as (? & ? & ?).
  assert (same_task (clamped q) qw) by (repeat split; congruence).
  assert (same_configuration (clamped q) qw) by (repeat split; congruence).
  destruct (is_success v2).
  { apply finish_solve_after_clamped; congruence. }
  destruct (cold_init_frame qw)
    as (ok & q' & Hcold & (? & ? & ?) & (? & ? & ?) & Hs).
  { unfold in_range. rewrite HlA', HuA', Hl', Hu', HlA, HuA, Hl, Hu.
    by apply in_range_clamped. }
  exists ok, q'. split; [done|]. simpl in *.
  split; [repeat split; congruence|].
  split; [repeat split; congruence|].
  apply (sanitised_again q qw q'); [..|exact Hs]; simpl; congruence.
Qed.

(** *** The loops stay in range in every state of a problem *)

Lemma sanitised_in_range q q' :
  in_range q -> sanitised_from q q' -> in_range q'.
Proof.
  intros Hq (HlA & HuA & Hl & Hu). unfold in_range.
  rewrite HlA, HuA, Hl, Hu.
  by rewrite !length_sanitised_lower, !length_sanitised_upper.
Qed.

Lemma initProblem_in_range H0 g A lA uA l u q ok q' :
  initProblem H0 g A lA uA l u q = Some (ok, q') -> in_range q'.
Proof.
  intros Hinit. apply initProblem_stores in Hinit.
  destruct Hinit as ([HA Hb] & _ & _ & _ & HlA & HuA & Hl & Hu & _).
  unfold in_range. rewrite HlA, HuA, Hl, Hu.
  by rewrite !length_sanitised_lower, !length_sanitised_upper.
Qed.

Lemma rebuild_returns q : in_range q -> is_Some (rebuild q).
Proof. intros [HA Hb]. unfold rebuild. by apply initProblem_returns. Qed.

(** What [rebuild] stores: the data it found, sanitised. *)
Lemma rebuild_stores q ok q' :
  rebuild q = Some (ok, q') ->
  same_task q q' /\ same_configuration q q' /\ sanitised_from q q'.
Proof.
  unfold rebuild. intros Hinit. apply initProblem_stores in Hinit.
  simpl in Hinit.
  destruct Hinit as (_ & ? & ? & ? & ? & ? & ? & ? & (? & ? & ?)).
  by repeat split.
Qed.

Lemma updateTask_returns H0 g q : in_range q -> is_Some (updateTask H0 g q).
Proof.
  intros Hq. unfold updateTask.
  destruct (negb _); [by eexists|]. destruct (negb _); [by eexists|].
  destruct (_ =? _); [by eexists|]. by apply rebuild_returns.
Qed.

Lemma updateTask_in_range H0 g q ok q' :
  in_range q -> updateTask H0 g q = Some (ok, q') -> in_range q'.
Proof.
  intros Hq. unfold updateTask.
  destruct (negb _); [by intros [= <- <-]|].
  destruct (negb _); [by intros [= <- <-]|].
  destruct (_ =? _); [by intros [= <- <-]|].
  intros Hr. apply rebuild_stores in Hr as (_ & _ & Hs).
  by apply (sanitised_in_range (set_task H0 g q)).
Qed.

Lemma updateConstraints_returns A lA uA q :
  to_unsigned (length (_l q)) <= length (_u q) ->
  is_Some (updateConstraints A lA uA q).
Proof.
  intros Hq. unfold updateConstraints.
  destruct (negb _); [by eexists|].
  destruct (negb _); [by eexists|].
  destruct (Nat.eqb_spec (length lA) (length uA)) as [HlA|]; simpl;
    [|by eexists].
  destruct (_ =? _); [by eexists|].
  apply rebuild_returns. split; simpl; [|done].
  rewrite <- HlA. apply to_unsigned_le.
Qed.

Lemma updateConstraints_in_range A lA uA q ok q' :
  in_range q -> updateConstraints A lA uA q = Some (ok, q') -> in_range q'.
Proof.
  intros [HA Hb]. unfold updateConstraints.
  destruct (negb _); [by intros [= <- <-]|].
  destruct (negb _); [by intros [= <- <-]|].
  destruct (Nat.eqb_spec (length lA) (length uA)) as [HlA|]; simpl;
    [|by intros [= <- <-]].
  assert (to_unsigned (length lA) <= length uA) as HlA'.
  { rewrite <- HlA. apply to_unsigned_le. }
  destruct (_ =? _).
  - intros [= <- <-]. by split.
  - intros Hr. apply rebuild_stores in Hr as (_ & _ & Hs).
    apply (sanitised_in_range (set_constraints A lA uA q)); [|done].
    by split.
Qed.

Lemma updateBounds_in_range l u q :
  in_range q -> in_range (updateBounds l u q).2.
Proof.
  intros [HA Hb]. unfold updateBounds.
  destruct (negb _); [done|]. destruct (negb _); [done|].
  destruct (Nat.eqb_spec (length l) (length u)) as [Hl|]; simpl; [|done].
  split; simpl; [done|]. rewrite <- Hl. apply to_unsigned_le.
Qed.

Lemma updateProblem_returns H0 g A lA uA l u q :
  in_range q -> is_Some (updateProblem H0 g A lA uA l u q).
Proof.
  intros Hq. rewrite updateProblem_unfold.
  pose proof (updateBounds_in_range l u q Hq) as Hb.
  destruct (updateBounds l u q) as [[] qb]; simpl in Hb; [|by eexists].
  destruct (updateConstraints_returns A lA uA qb) as [[okc qc] Hc];
    [apply Hb|].
  rewrite Hc. destruct okc; [|by eexists].
  eapply updateTask_returns, updateConstraints_in_range; eauto.
Qed.

Lemma updateProblem_in_range H0 g A lA uA l u q ok q' :
  in_range q -> updateProblem H0 g A lA uA l u q = Some (ok, q') ->
  in_range q'.
Proof.
  intros Hq. rewrite updateProblem_unfold.
  pose proof (updateBounds_in_range l u q Hq) as Hb.
  destruct (updateBounds l u q) as [[] qb]; simpl in Hb;
    [|by intros [= <- <-]].
  destruct (updateConstraints A lA uA qb) as [[[] qc]|] eqn:Hc; [| |done].
  - intros Ht. eapply updateTask_in_range; [|exact Ht].
    eapply updateConstraints_in_range; eauto.
  - intros [= <- <-]. eapply updateConstraints_in_range; eauto.
Qed.

(** The invariant of the class: neither loop of [checkINFTY] leaves its
    upper vector, in whatever state the constructor and the public member
    functions lead to. *)
Lemma reachable_range q : reachable q -> in_range q.
Proof.
  induction 1 as [nv nc ht eps|q _ IH|o q _ IH|ht q _ IH|n q _ IH
    |H0 g A lA uA l u q ok q' _ IH Hop|H0 g q ok q' _ IH Hop
    |A lA uA q ok q' _ IH Hop|l u q _ IH
    |H0 g A lA uA l u q ok q' _ IH Hop|q ok q' _ IH Hop];
    try exact IH.
  - split; simpl; apply to_unsigned_le.
  - by eapply initProblem_in_range.
  - by eapply updateTask_in_range.
  - by eapply updateConstraints_in_range.
  - by apply updateBounds_in_range.
  - by eapply updateProblem_in_range.
  - destruct (solve_sanitised q IH) as (ok' & q'' & Hs & _ & _ & Hsan).
    rewrite Hop in Hs. injection Hs as <- <-.
    by eapply sanitised_in_range.
Qed.

(** Under the contract of the library a fetch after a successful solver
    call succeeds. *)
Lemma finish_solve_contract q :
  is_success (getPrimalSolution (_problem q)
                (resize_to (getNV (_problem q)) (_solution q))).1 = true ->
  finish_solve q = Some (true, (fetch_solution q).2) /\
  _problem (fetch_solution q).2 = _problem q.
Proof.
  intros Hp. rewrite finish_solve_cases.
  assert ((fetch_solution q).1
          = (getPrimalSolution (_problem q)
               (resize_to (getNV (_problem q)) (_solution q))).1) as ->.
  { unfold fetch_solution.
    destruct (getPrimalSolution _ _) as [s x].
    by destruct (getDualSolution _ _) as [s' y]. }
  rewrite Hp. split; [done|].
  destruct (fetch_solution q) as [s qf] eqn:Hf.
  by apply fetch_solution_frame in Hf as (? & _).
Qed.

(** C10, as the code has it: [solve], called in any state of a problem,
    returns, and whatever it returns and on whichever path, the stored H,
    g and A, the iteration budget, the regularisation factor and the
    options are what they were.  The members it may change are the solver
    object, the primal and dual solution, the active sets, and the four
    bound vectors; of these, the entries that the loops of [checkINFTY]
    visit (as many as the size of lA, respectively l, in an
    [unsigned int]) are moved onto [-INFTY] when they are entries of lA or
    l below [-INFTY], onto [INFTY] when they are entries of uA or u above
    [INFTY], and all other entries are what they were. *)
Theorem solve_frame q :
  reachable q ->
  exists ok q', solve q = Some (ok, q') /\
    (_H q' = _H q /\ _g q' = _g q /\ _A q' = _A q) /\
    (_nWSR q' = _nWSR q /\ _epsRegularisation q' = _epsRegularisation q /\
     _opt q' = _opt q) /\
    (_lA q' = (clamp_lower <$> take (to_unsigned (length (_lA q))) (_lA q))
              ++ drop (to_unsigned (length (_lA q))) (_lA q) /\
     _uA q' = (clamp_upper <$> take (to_unsigned (length (_lA q))) (_uA q))
              ++ drop (to_unsigned (length (_lA q))) (_uA q) /\
     _l q' = (clamp_lower <$> take (to_unsigned (length (_l q))) (_l q))
             ++ drop (to_unsigned (length (_l q))) (_l q) /\
     _u q' = (clamp_upper <$> take (to_unsigned (length (_l q))) (_u q))
             ++ drop (to_unsigned (length (_l q))) (_u q)).
Proof.
  intros Hq%reachable_range.
  destruct (solve_sanitised q Hq) as (ok & q' & Hsolve & Ht & Hc & Hs).
  by exists ok, q'.
Qed.

(** C2: under the contract of qpOASES ([getPrimalSolution] succeeds on an
    object on which [hotstart] or [init] has just succeeded), [solve],
    called in any state of a problem, makes three attempts in this order.
    First the hotstart, on the solver object as it is: when it succeeds,
    [solve] returns success and the solver object is the one the hotstart
    left, no [init] having been called.  When it fails, one [init] seeded
    with the last primal and dual solution and the last active sets, with
    the iteration count the hotstart left: when it succeeds, [solve]
    returns success and the solver object is the one this [init] left.
    When it fails too, [solve] returns what [initProblem] returns on the
    stored H, g, A, lA, uA, l and u.  So [solve] returns failure only when
    the hotstart has failed, the seeded [init] has failed and that
    [initProblem] has returned failure. *)
Theorem solve_three_attempts q v1 n1 p1 v2 n2 p2 :
  primal_after_success ->
  reachable q ->
  let d := clamped q in
  hotstart (_H d) (_g d) (_A d) (_l d) (_u d) (_lA d) (_uA d) (_nWSR q)
           (_problem q) = (v1, n1, p1) ->
  init (_H d) (_g d) (_A d) (_l d) (_u d) (_lA d) (_uA d) n1
       (Some (_solution q, _dual_solution q, _bounds q, _constraints q))
       p1 = (v2, n2, p2) ->
  let cold :=
    initProblem (_H d) (_g d) (_A d) (_lA d) (_uA d) (_l d) (_u d)
                (set_problem p2 d) in
  (is_success v1 = true ->
     exists q', solve q = Some (true, q') /\ _problem q' = p1) /\
  (is_success v1 = false -> is_success v2 = true ->
     exists q', solve q = Some (true, q') /\ _problem q' = p2) /\
  (is_success v1 = false -> is_success v2 = false -> solve q = cold) /\
  (forall q', solve q = Some (false, q') ->
     is_success v1 = false /\ is_success v2 = false /\
     cold = Some (false, q')).
Proof.
  intros [Hhotc Hinitc] Hq%reachable_range d Hhot Hwarm cold.
  assert (solve q =
    if is_success v1 then finish_solve (set_problem p1 d)
    else if is_success v2 then finish_solve (set_problem p2 d)
    else cold) as Hsolve.
  { rewrite solve_unfold by done. subst d. simpl in Hhot, Hwarm.
    unfold try_hotstart. simpl.
    rewrite Hhot. destruct (is_success v1); [done|].
    unfold try_warmstart. simpl. by rewrite Hwarm. }
  assert (is_success v1 = true ->
          exists q', solve q = Some (true, q') /\ _problem q' = p1) as H1.
  { intros Hv1. rewrite Hsolve, Hv1.
    destruct (finish_solve_contract (set_problem p1 d)) as [Hf Hp].
    { simpl. by eapply Hhotc. }
    eexists. split; [exact Hf|exact Hp]. }
  assert (is_success v1 = false -> is_success v2 = true ->
          exists q', solve q = Some (true, q') /\ _problem q' = p2) as H2.
  { intros Hv1 Hv2. rewrite Hsolve, Hv1, Hv2.
    destruct (finish_solve_contract (set_problem p2 d)) as [Hf Hp].
    { simpl. by eapply Hinitc. }
    eexists. split; [exact Hf|exact Hp]. }
  split; [done|]. split; [done|]. split.
  - intros Hv1 Hv2. by rewrite Hsolve, Hv1, Hv2.
  - intros q' Hfail.
    destruct (is_success v1) eqn:Hv1.
    { destruct (H1 eq_refl) as (q1 & Hs & _). congruence. }
    destruct (is_success v2) eqn:Hv2.
    { destruct (H2 eq_refl eq_refl) as (q2 & Hs & _). congruence. }
    split; [done|]. split; [done|]. by rewrite <- Hsolve.
Qed.

End QPOasesProblemFacts.

(** *** On the concrete problems *)

Import Examples.
Local Open Scope float_scope.

(** The stand-in solver keeps the contract of the library. *)
Lemma Stub_primal_after_success a :
  primal_after_success (Q := Stub.solver a).
Proof.
  split; simpl.
  - intros H0 g A l u lA uA nWSR p val nWSR' p'. unfold Stub.run_hotstart.
    destruct (Stub.status p) eqn:Hst; intros [= <- <- <-]; try done;
      destruct (Stub.hot_ok a); done.
  - intros H0 g A l u lA uA nWSR guess p val nWSR' p'.
    destruct guess; unfold Stub.run_init; intros [= <- <- <-].
    + by destruct (Stub.warm_ok a).
    + by destruct (Stub.cold_ok a).
Qed.

(** The initialised problem is a state of the class, whatever the solver
    answers. *)
Lemma reachable_loaded a : reachable (loaded a).
Proof.
  unfold loaded, state_after.
  destruct (initProblem _ _ _ _ _ _ _ _) as [[ok q']|] eqn:Hinit; simpl.
  - eapply reach_initProblem; [apply reach_new|exact Hinit].
  - apply reach_new.
Qed.

Lemma reachable_far_bounds : reachable (far_bounds all_ok).
Proof.
  assert (updateConstraints (Q := Stub.solver all_ok) A_row [2e20] [-2e20]
            (loaded all_ok)
          = Some (true, set_constraints (Q := Stub.solver all_ok) A_row
                          [2e20] [-2e20] (loaded all_ok))) as Hc
    by (vm_compute; reflexivity).
  assert (far_bounds all_ok
          = (updateBounds (Q := Stub.solver all_ok) [2e20; -2e20]
               [-2e20; 2e20]
               (set_constraints (Q := Stub.solver all_ok) A_row [2e20]
                  [-2e20] (loaded all_ok))).2) as ->
    by (vm_compute; reflexivity).
  apply reach_updateBounds.
  eapply reach_updateConstraints; [apply reachable_loaded|exact Hc].
Qed.



Lemma solve_three_attempts_witness :
  exists q',
    solve (loaded hot_fails) = Some (true, q') /\
    _problem q'
    = Stub.called Stub.InitWarm Stub.Solved
        (Stub.called Stub.Hotstart Stub.Unsolved
           (_problem (loaded hot_fails))).
Proof.
  refine (proj1 (proj2 (solve_three_attempts (Q := Stub.solver hot_fails)
                   (loaded hot_fails)
                   (RET_ERROR 1) 132%Z
                   (Stub.called Stub.Hotstart Stub.Unsolved
                      (_problem (loaded hot_fails)))
                   SUCCESSFUL_RETURN 132%Z
                   (Stub.called Stub.InitWarm Stub.Solved
                      (Stub.called Stub.Hotstart Stub.Unsolved
                         (_problem (loaded hot_fails))))
                   _ _ _ _)) _ _).
  - apply Stub_primal_after_success.
  - apply reachable_loaded.
  - vm_compute; reflexivity.
  - vm_compute; reflexivity.
  - vm_compute; reflexivity.
  - vm_compute; reflexivity.
Defined.

(** C3: the code does not do what the claim and the documentation of
    [checkINFTY] say.  [initProblem] is given a lower constraint bound
    above [INFTY], an upper constraint bound below [-INFTY] and box bounds
    with entries beyond both sides.  What is stored after the loops of
    [checkINFTY] still has the lower bound [2e20] above [INFTY] and the
    upper bound [-2e20] below [-INFTY]: only the lower bounds below
    [-INFTY] and the upper bounds above [INFTY] have been moved, and a
    further [checkINFTY] changes nothing. *)
Theorem checkINFTY_leaves_far_side :
  exists q',
    initProblem H_id [1; 1] A_row [2e20] [-2e20] [2e20; -2e20] [-2e20; 2e20]
      (fresh cold_fails) = Some (false, q') /\
    (_lA q' = [2e20] /\ real_lt INFTY 2e20 = true) /\
    (_uA q' = [-2e20] /\ real_lt (-2e20) (real_opp INFTY) = true) /\
    _l q' = [2e20; -1e20] /\ _u q' = [-2e20; 1e20] /\
    checkINFTY q' = Some q'.
Proof.
  eexists. split; [vm_compute; reflexivity|].
  split_and!; vm_compute; reflexivity.
Qed.



Lemma updateProblem_order_witness :
  updateProblem H_twice [3; 3] A_row [-1] [1] [0] [5; 5] (loaded all_ok)
  = Some (false, loaded all_ok) /\
  updateProblem H_twice [3; 3] A_row [-1] [1; 2] [0; 0] [5; 5] (loaded all_ok)
  = Some (false, set_bounds (Q := Stub.solver all_ok) [0; 0] [5; 5] (loaded all_ok)) /\
  updateProblem H_twice [3; 3] A_row [-2] [2] [0; 0] [5; 5] (loaded all_ok)
  = updateTask H_twice [3; 3]
      (set_constraints (Q := Stub.solver all_ok) A_row [-2] [2] (set_bounds (Q := Stub.solver all_ok) [0; 0] [5; 5] (loaded all_ok))).
Proof.
  split; [|split].
  - apply (proj1 (updateProblem_order (Q := Stub.solver all_ok) H_twice
                    [3; 3] A_row [-1] [1] [0] [5; 5] (loaded all_ok))).
    vm_compute; reflexivity.
  - apply (proj1 (proj2 (updateProblem_order (Q := Stub.solver all_ok) H_twice
                    [3; 3] A_row [-1] [1; 2] [0; 0] [5; 5] (loaded all_ok)))
             (set_bounds (Q := Stub.solver all_ok) [0; 0] [5; 5] (loaded all_ok)));
      vm_compute; reflexivity.
  - apply (proj1 (proj2 (proj2 (updateProblem_order (Q := Stub.solver all_ok)
                    H_twice [3; 3] A_row [-2] [2] [0; 0] [5; 5] (loaded all_ok))))
             (set_bounds (Q := Stub.solver all_ok) [0; 0] [5; 5] (loaded all_ok)));
      vm_compute; reflexivity.
Defined.



(** C10, as stated, fails: [solve] changes a member that is not in the
    list of the claim, the solver object.  On a problem whose first [init]
    did not converge the solver object is not initialised; after [solve],
    whose seeded [init] converges, it holds a solved problem. *)
Lemma solve_changes_solver_object :
  let q := loaded cold_fails in
  exists q', solve q = Some (true, q') /\
    Stub.status (_problem q) = Stub.NotInitialised /\
    Stub.status (_problem q') = Stub.Solved /\
    _problem q' <> _problem q.
Proof.
  eexists. split; [vm_compute; reflexivity|].
  split_and!; try (vm_compute; reflexivity).
  intros E. apply (f_equal Stub.status) in E. vm_compute in E. discriminate.
Qed.

Lemma solve_frame_witness :
  exists ok q', solve (far_bounds all_ok) = Some (ok, q') /\
    _H q' = H_id /\ _lA q' = [2e20] /\ _uA q' = [-2e20] /\
    _l q' = [2e20; -1e20] /\ _u q' = [-2e20; 1e20].
Proof.
  destruct (solve_frame (Q := Stub.solver all_ok) (far_bounds all_ok))
    as (ok & q' & Hsolve & (HH & _) & _ & (HlA & HuA & Hl & Hu)).
  - apply reachable_far_bounds.
  - exists ok, q'. split; [exact Hsolve|]. split; [exact HH|].
    rewrite HlA, HuA, Hl, Hu. split_and!; vm_compute; reflexivity.
Defined.

End QPOasesProblemFacts.
(** ** Constraint classification *)

Module ConstraintFacts.
Import Constraint.
Section ConstraintFacts.
Context {R : Real_t}.

Lemma isInequalityConstraint_rows (c : Constraint) :
  isInequalityConstraint c = true <-> 0 < rows (_Aineq c).
Proof. unfold isInequalityConstraint. by rewrite bool_decide_eq_true. Qed.

(** C7, as the code has it: a constraint is unilateral exactly when it is
    an inequality and at least one of [bLowerBound], [bUpperBound] is
    empty; it is bilateral exactly when it is an inequality and not
    unilateral, that is, an inequality with both bounds non-empty. *)
Theorem unilateral_bilateral (c : Constraint) :
  (isUnilateralConstraint c = true <->
   isInequalityConstraint c = true /\
   (_bLowerBound c = [] \/ _bUpperBound c = [])) /\
  (isBilateralConstraint c = true <->
   isInequalityConstraint c = true /\ isUnilateralConstraint c = false) /\
  (isBilateralConstraint c = true <->
   isInequalityConstraint c = true /\
   _bLowerBound c <> [] /\ _bUpperBound c <> []).
Proof.
  unfold isBilateralConstraint, isUnilateralConstraint.
  rewrite <- !length_zero_iff_nil.
  destruct (isInequalityConstraint c); simpl;
    destruct (Nat.eqb_spec (length (_bLowerBound c)) 0);
    destruct (Nat.eqb_spec (length (_bUpperBound c)) 0); simpl;
    intuition (try discriminate; try lia).
Qed.

End ConstraintFacts.

(** C7, as stated, fails: an inequality constraint with both bounds empty
    is unilateral, although not exactly one of them is empty. *)
Lemma unilateral_with_both_bounds_empty :
  isInequalityConstraint ineq_without_bounds = true /\
  _bLowerBound ineq_without_bounds = [] /\
  _bUpperBound ineq_without_bounds = [] /\
  exactly_one_empty ineq_without_bounds = false /\
  isUnilateralConstraint ineq_without_bounds = true /\
  isBilateralConstraint ineq_without_bounds = false.
Proof. split_and!; reflexivity. Qed.

End ConstraintFacts.

(** ** Aggregation *)

Module AggregatedFacts.
Import Aggregated.
Section AggregatedFacts.
Context {R : Real_t}.
Variable update_task : VectorXd -> Task -> Task.

Implicit Types (c : ConstraintPtr) (acc cs : list ConstraintPtr).

Lemma elem_of_append_new cs : forall acc c,
  c ∈ append_new acc cs <-> c ∈ acc \/ c ∈ cs.
Proof.
  unfold append_new.
  induction cs as [|c' cs IH]; intros acc c; simpl.
  - rewrite elem_of_nil. tauto.
  - rewrite IH, elem_of_cons. case_decide as Hin.
    + split; [tauto|]. intros [?|[->|?]]; tauto.
    + rewrite elem_of_app, list_elem_of_singleton. tauto.
Qed.

Lemma NoDup_append_new cs : forall acc,
  NoDup acc -> NoDup (append_new acc cs).
Proof.
  unfold append_new.
  induction cs as [|c' cs IH]; intros acc Hacc; simpl; [done|].
  apply IH. case_decide as Hin; [done|].
  apply NoDup_app. split; [done|]. split; [|apply NoDup_singleton].
  intros x Hx. rewrite list_elem_of_singleton. by intros ->.
Qed.

Lemma elem_of_generate_constraints (tasks : list Task) : forall own c,
  c ∈ generate_constraints own tasks <->
  c ∈ own \/ exists t, t ∈ tasks /\ c ∈ constraints t.
Proof.
  unfold generate_constraints.
  induction tasks as [|t tasks IH]; intros own c; simpl.
  - split; [tauto|]. intros [?|(t & Ht & _)]; [done|]. by apply elem_of_nil in Ht.
  - rewrite IH, elem_of_append_new. split.
    + intros [[?|?]|(t' & ? & ?)]; [tauto| |].
      * right. exists t. by rewrite elem_of_cons; auto.
      * right. exists t'. by rewrite elem_of_cons; auto.
    + intros [?|(t' & Ht' & ?)]; [tauto|].
      apply elem_of_cons in Ht' as [->|?]; [tauto|]. right. by exists t'.
Qed.

(** The merged list holds no address twice, provided the own constraints
    do not. *)
Lemma NoDup_generate_constraints (tasks : list Task) : forall own,
  NoDup own -> NoDup (generate_constraints own tasks).
Proof.
  unfold generate_constraints.
  induction tasks as [|t tasks IH]; intros own Hown; simpl; [done|].
  by apply IH, NoDup_append_new.
Qed.

Lemma elem_of_generate_two (Ta Tb : Task) c :
  c ∈ generate_constraints [] [Ta; Tb] <->
  c ∈ constraints Ta \/ c ∈ constraints Tb.
Proof.
  unfold generate_constraints; simpl.
  rewrite !elem_of_append_new, elem_of_nil. tauto.
Qed.

(** What the constructor builds. *)
Lemma new_Aggregated_Some (tasks : list Task) n agg :
  new_Aggregated tasks n = Some agg ->
  Forall (fun t => x_size t = n) tasks /\
  _tasks agg = tasks /\ agg_x_size agg = n /\ own_constraints agg = [] /\
  generate_A n tasks = Some (agg_A agg) /\
  agg_b agg = generate_b tasks /\
  getConstraints agg = generate_constraints [] tasks.
Proof.
  unfold new_Aggregated, generateAll.
  destruct (forallb _ tasks) eqn:Hall; [|done].
  destruct (generate_A n tasks) as [M|]; simpl; [|done].
  intros [= <-]. split; [|done].
  apply Forall_forall. intros t Ht.
  rewrite forallb_forall in Hall. apply Nat.eqb_eq, Hall.
  by apply list_elem_of_In.
Qed.

(** Two matrices of [n] columns stack on the empty start. *)
Lemma generate_A_two (T1 T2 : Task) n :
  cols (A T1) = n -> cols (A T2) = n ->
  generate_A n [T1; T2]
  = Some (mkMatrix n (row_list (A T1) ++ row_list (A T2))).
Proof.
  intros H1 H2. unfold generate_A, vstack; simpl.
  by rewrite H1, H2, !Nat.eqb_refl; simpl; rewrite Nat.eqb_refl.
Qed.

(** C8: two tasks share the constraint at [c] and own one more each, at
    [d1] and [d2].  The constraints of their Aggregated are [c], [d1] and
    [d2], once each, in whichever order the two tasks are given: three
    entries, of which one is [c].  Addresses decide, not contents. *)
Theorem shared_constraint_once (T1 T2 : Task) c d1 d2 n agg agg' :
  c <> d1 -> c <> d2 -> d1 <> d2 ->
  constraints T1 ≡ₚ [c; d1] -> constraints T2 ≡ₚ [c; d2] ->
  new_Aggregated [T1; T2] n = Some agg ->
  new_Aggregated [T2; T1] n = Some agg' ->
  (getConstraints agg ≡ₚ [c; d1; d2] /\
   length (getConstraints agg) = 3 /\
   length (filter (fun x => x = c) (getConstraints agg)) = 1) /\
  (getConstraints agg' ≡ₚ [c; d1; d2] /\
   length (getConstraints agg') = 3 /\
   length (filter (fun x => x = c) (getConstraints agg')) = 1).
Proof.
  intros Hcd1 Hcd2 Hd Hp1 Hp2 Hagg Hagg'.
  assert (NoDup [c; d1; d2]) as Hnd.
  { rewrite !NoDup_cons, !elem_of_cons, !elem_of_nil.
    split_and!; try tauto. apply NoDup_nil_2. }
  assert (forall l, NoDup l -> (forall x, x ∈ l <-> x = c \/ x = d1 \/ x = d2) ->
    l ≡ₚ [c; d1; d2] /\ length l = 3 /\
    length (filter (fun x => x = c) l) = 1) as Hcount.
  { intros l Hl Hin.
    assert (l ≡ₚ [c; d1; d2]) as Hperm.
    { apply NoDup_Permutation; [done..|]. intros x.
      rewrite Hin, !elem_of_cons, elem_of_nil. tauto. }
    split; [done|]. rewrite Hperm. split; [done|].
    rewrite !filter_cons, filter_nil.
    rewrite decide_True by done.
    by rewrite !decide_False by done. }
  apply new_Aggregated_Some in Hagg as (_ & _ & _ & _ & _ & _ & ->).
  apply new_Aggregated_Some in Hagg' as (_ & _ & _ & _ & _ & _ & ->).
  split; apply Hcount;
    try (apply NoDup_generate_constraints, NoDup_nil_2);
    intros x; rewrite elem_of_generate_two, Hp1, Hp2,
      !elem_of_cons, !elem_of_nil; tauto.
Qed.

(** C9: for two tasks of the same [x_size], well-shaped after their update,
    the Aggregated after [update] has a matrix of [x_size] columns whose
    rows are the rows of the updated [A] of the first task followed by the
    rows of the updated [A] of the second, and a vector whose entries are
    the entries of the updated [b] of the first task, each multiplied by
    its [lambda], followed by those of the second, each multiplied by its
    [lambda]; so row [i] of the first task is row [i] of the composite, and
    row [i] of the second is row [rows A1 + i]. *)
Theorem aggregated_A_b (T1 T2 : Task) n x agg :
  let T1' := update_task x T1 in
  let T2' := update_task x T2 in
  x_size T1' = n -> x_size T2' = n -> task_wf T1' -> task_wf T2' ->
  new_Aggregated [T1; T2] n = Some agg ->
  exists agg', update update_task x agg = Some agg' /\
    cols (agg_A agg') = n /\
    row_list (agg_A agg') = row_list (A T1') ++ row_list (A T2') /\
    agg_b agg'
    = (real_mul (lambda T1') <$> b T1') ++ (real_mul (lambda T2') <$> b T2') /\
    (forall i, i < rows (A T1') ->
       row_list (agg_A agg') !! i = row_list (A T1') !! i /\
       agg_b agg' !! i = real_mul (lambda T1') <$> b T1' !! i) /\
    (forall i,
       row_list (agg_A agg') !! (rows (A T1') + i) = row_list (A T2') !! i /\
       agg_b agg' !! (rows (A T1') + i) = real_mul (lambda T2') <$> b T2' !! i).
Proof.
  intros T1' T2' Hx1 Hx2 [Hc1 Hr1] [Hc2 Hr2] Hagg.
  apply new_Aggregated_Some in Hagg as (_ & Htasks & Hn & Hown & _).
  rewrite Hx1 in Hc1. rewrite Hx2 in Hc2.
  pose proof (generate_A_two T1' T2' n Hc1 Hc2) as Hgen.
  unfold update, generateAll. rewrite Htasks, Hn, Hown. simpl.
  fold T1' T2'. rewrite Hgen. simpl.
  eexists. split; [reflexivity|]. simpl.
  unfold generate_b, scale; simpl.
  split; [done|]. split; [done|]. split; [done|]. split.
  - intros i Hi. unfold rows in Hi, Hr1.
    rewrite !lookup_app_l by (rewrite ?length_fmap; lia).
    by rewrite list_lookup_fmap.
  - intros i. unfold rows in *.
    rewrite lookup_app_r by lia.
    rewrite lookup_app_r by (rewrite length_fmap; lia).
    rewrite length_fmap, <- Hr1, list_lookup_fmap.
    split; f_equal; f_equal; lia.
Qed.

End AggregatedFacts.

(** *** On the concrete tasks *)

Import Examples.
Local Open Scope float_scope.

Lemma shared_constraint_once_witness :
  exists agg agg',
    new_Aggregated [T_posture; T_sum] 2 = Some agg /\
    new_Aggregated [T_sum; T_posture] 2 = Some agg' /\
    getConstraints agg = [7; 8; 9]%nat /\
    getConstraints agg' = [9; 7; 8]%nat /\
    length (filter (fun x => x = 7%nat) (getConstraints agg)) = 1%nat /\
    length (filter (fun x => x = 7%nat) (getConstraints agg')) = 1%nat.
Proof.
  destruct (new_Aggregated [T_posture; T_sum] 2) as [agg|] eqn:Hagg;
    [|discriminate Hagg].
  destruct (new_Aggregated [T_sum; T_posture] 2) as [agg'|] eqn:Hagg';
    [|discriminate Hagg'].
  destruct (shared_constraint_once T_posture T_sum 7%nat 8%nat 9%nat 2 agg agg')
    as [(_ & _ & Hc) (_ & _ & Hc')]; try done.
  { apply Permutation_swap. }
  exists agg, agg'.
  injection Hagg as <-. injection Hagg' as <-.
  split_and!; done.
Defined.

Lemma aggregated_A_b_witness :
  exists agg agg',
    new_Aggregated [T_posture; T_sum] 2 = Some agg /\
    update retarget [3; 4] agg = Some agg' /\
    agg_A agg' = mkMatrix 2 [[1; 0]; [0; 1]; [1; 1]] /\
    agg_b agg' = [1.5; 2; 4].
Proof.
  destruct (new_Aggregated [T_posture; T_sum] 2) as [agg|] eqn:Hagg;
    [|discriminate Hagg].
  destruct (aggregated_A_b (R := Double) retarget T_posture T_sum 2 [3; 4] agg)
    as (agg' & Hup & Hcols & HA & Hb & _); try done.
  exists agg, agg'. split; [done|]. split; [exact Hup|].
  split; [|rewrite Hb; vm_compute; reflexivity].
  destruct (agg_A agg') as [c rs]. simpl in Hcols, HA. by rewrite Hcols, HA.
Defined.

End AggregatedFacts.

(** * Further properties *)

(** ** More on the sanitisation *)

Module CheckINFTYMore.
Import QPOasesProblem CheckINFTYFacts.
Section CheckINFTYMore.
Context {R : Real_t} {Q : qpOASES}.

Implicit Types q : QPOasesProblem.

Lemma clamp_lower_to_fixed n (lo : VectorXd) :
  n <= length lo ->
  clamp_lower_to n lo = lo <->
  Forall (fun x => real_lt x (real_opp INFTY) = false) (take n lo).
Proof.
  intros Hn. unfold clamp_lower_to. split.
  - intros Hlo.
    assert (clamp_lower <$> take n lo = take n lo) as <-.
    { rewrite <- Hlo at 2.
      by rewrite take_app_length' by (rewrite length_fmap, length_take; lia). }
    apply Forall_fmap, Forall_true. intros x. apply clamp_lower_not_below.
  - intros Hlo. rewrite <- (take_drop n lo) at 3. f_equal.
    rewrite <- (list_fmap_id (take n lo)) at 2.
    apply Forall_fmap_ext. eapply Forall_impl; [exact Hlo|].
    intros x Hx. unfold clamp_lower. by rewrite Hx.
Qed.

Lemma clamp_upper_to_fixed n (up : VectorXd) :
  n <= length up ->
  clamp_upper_to n up = up <->
  Forall (fun x => real_lt INFTY x = false) (take n up).
Proof.
  intros Hn. unfold clamp_upper_to. split.
  - intros Hup.
    assert (clamp_upper <$> take n up = take n up) as <-.
    { rewrite <- Hup at 2.
      by rewrite take_app_length' by (rewrite length_fmap, length_take; lia). }
    apply Forall_fmap, Forall_true. intros x. apply clamp_upper_not_above.
  - intros Hup. rewrite <- (take_drop n up) at 3. f_equal.
    rewrite <- (list_fmap_id (take n up)) at 2.
    apply Forall_fmap_ext. eapply Forall_impl; [exact Hup|].
    intros x Hx. unfold clamp_upper. by rewrite Hx.
Qed.

(** Entry [j] of a vector after a loop of [n] iterations. *)
Lemma lookup_lower_after n (lo : VectorXd) j :
  clamp_lower_to n lo !! j
  = (fun x => if (j <? n) && real_lt x (real_opp INFTY)
              then real_opp INFTY else x) <$> lo !! j.
Proof.
  rewrite lookup_clamp_lower_to. unfold clamp_lower.
  destruct (lo !! j) as [x|]; simpl; [|by case_decide].
  case_decide as Hj.
  - by rewrite (proj2 (Nat.ltb_lt _ _) Hj).
  - by rewrite (proj2 (Nat.ltb_ge _ _)) by lia.
Qed.

Lemma lookup_upper_after n (up : VectorXd) j :
  clamp_upper_to n up !! j
  = (fun x => if (j <? n) && real_lt INFTY x then INFTY else x) <$> up !! j.
Proof.
  rewrite lookup_clamp_upper_to. unfold clamp_upper.
  destruct (up !! j) as [x|]; simpl; [|by case_decide].
  case_decide as Hj.
  - by rewrite (proj2 (Nat.ltb_lt _ _) Hj).
  - by rewrite (proj2 (Nat.ltb_ge _ _)) by lia.
Qed.

(** X1: [checkINFTY] runs through exactly when each loop, which runs over
    the size of the lower vector as an [unsigned int] holds it, stays within
    the upper vector; otherwise it indexes the upper vector out of range.
    When it runs through, an entry of lA or l that a loop visits and that
    is below [-INFTY] has become [-INFTY], an entry of uA or u that a loop
    visits and that is above [INFTY] has become [INFTY], and every other
    entry of the four vectors is what it was. *)
Theorem checkINFTY_returns_iff q :
  let nA := to_unsigned (length (_lA q)) in
  let nb := to_unsigned (length (_l q)) in
  (is_Some (checkINFTY q) <->
   nA <= length (_uA q) /\ nb <= length (_u q)) /\
  (forall q' j, checkINFTY q = Some q' ->
     _lA q' !! j
     = (fun x => if (j <? nA) && real_lt x (real_opp INFTY)
                 then real_opp INFTY else x) <$> _lA q !! j /\
     _uA q' !! j
     = (fun x => if (j <? nA) && real_lt INFTY x then INFTY else x)
         <$> _uA q !! j /\
     _l q' !! j
     = (fun x => if (j <? nb) && real_lt x (real_opp INFTY)
                 then real_opp INFTY else x) <$> _l q !! j /\
     _u q' !! j
     = (fun x => if (j <? nb) && real_lt INFTY x then INFTY else x)
         <$> _u q !! j).
Proof.
  intros nA nb. split.
  - split.
    + intros [q' Hq']. by apply checkINFTY_Some in Hq' as [? _].
    + intros Hq. rewrite checkINFTY_clamped by done. by eexists.
  - intros q' j Hq'. apply checkINFTY_Some in Hq' as [_ ->]. simpl.
    unfold sanitised_lower, sanitised_upper.
    by rewrite !lookup_lower_after, !lookup_upper_after.
Qed.

(** X2: sanitising a sanitised state changes nothing. *)
Theorem checkINFTY_idempotent q q' :
  checkINFTY q = Some q' -> checkINFTY q' = Some q'.
Proof.
  intros Hq. apply checkINFTY_Some in Hq as [Hq ->].
  rewrite checkINFTY_clamped by by apply in_range_clamped.
  by rewrite clamped_idemp.
Qed.

(** X3: [checkINFTY] leaves a state as it is exactly when its loops stay
    in range and, of the entries they visit, no lower bound is below
    [-INFTY] and no upper bound is above [INFTY]. *)
Theorem checkINFTY_fixed_point q :
  let nA := to_unsigned (length (_lA q)) in
  let nb := to_unsigned (length (_l q)) in
  checkINFTY q = Some q <->
  (nA <= length (_uA q) /\ nb <= length (_u q)) /\
  Forall (fun x => real_lt x (real_opp INFTY) = false) (take nA (_lA q)) /\
  Forall (fun x => real_lt INFTY x = false) (take nA (_uA q)) /\
  Forall (fun x => real_lt x (real_opp INFTY) = false) (take nb (_l q)) /\
  Forall (fun x => real_lt INFTY x = false) (take nb (_u q)).
Proof.
  intros nA nb.
  pose proof (to_unsigned_le (length (_lA q))) as HnA.
  pose proof (to_unsigned_le (length (_l q))) as Hnb.
  split.
  - intros Hq. apply checkINFTY_Some in Hq as [[HA Hb] Hq].
    split; [done|].
    rewrite <- clamp_lower_to_fixed, <- clamp_upper_to_fixed by done.
    rewrite <- clamp_lower_to_fixed, <- clamp_upper_to_fixed by done.
    apply (f_equal (fun q => (_lA q, _uA q, _l q, _u q))) in Hq.
    simpl in Hq. injection Hq as H1 H2 H3 H4.
    split_and!; symmetry; [exact H1|exact H2|exact H3|exact H4].
  - intros ([HA Hb] & HlA & HuA & Hl & Hu). subst nA nb.
    rewrite checkINFTY_clamped by done. f_equal.
    apply clamp_lower_to_fixed in HlA, Hl; [|done..].
    apply clamp_upper_to_fixed in HuA, Hu; [|done..].
    destruct q; unfold clamped, sanitised_lower, sanitised_upper;
      simpl in *. by rewrite HlA, HuA, Hl, Hu.
Qed.

(** X4: [checkINFTY] changes no size and touches nothing but the four bound
    vectors. *)
Theorem checkINFTY_frame q q' :
  checkINFTY q = Some q' ->
  (length (_lA q') = length (_lA q) /\ length (_uA q') = length (_uA q) /\
   length (_l q') = length (_l q) /\ length (_u q') = length (_u q)) /\
  same_task q q' /\ same_solver_state q q' /\ same_configuration q q'.
Proof.
  intros Hq. apply checkINFTY_Some in Hq as [_ ->]. simpl.
  rewrite !length_sanitised_lower, !length_sanitised_upper. by repeat split.
Qed.

End CheckINFTYMore.

Import Examples.

Local Open Scope float_scope.

Lemma checkINFTY_returns_iff_witness :
  _l (clamped (far_bounds all_ok)) !! 1%nat = Some (-1e20) /\
  _u (clamped (far_bounds all_ok)) !! 1%nat = Some 1e20 /\
  _l (clamped (far_bounds all_ok)) !! 0%nat = Some 2e20.
Proof.
  assert (checkINFTY (far_bounds all_ok)
          = Some (clamped (far_bounds all_ok))) as Hc
    by (vm_compute; reflexivity).
  pose proof (fun j =>
    proj2 (checkINFTY_returns_iff (Q := Stub.solver all_ok)
             (far_bounds all_ok))
      (clamped (far_bounds all_ok)) j Hc) as Hx.
  split; [|split].
  - destruct (Hx 1%nat) as (_ & _ & Hl & _).
    etrans; [exact Hl|]. vm_compute; reflexivity.
  - destruct (Hx 1%nat) as (_ & _ & _ & Hu).
    etrans; [exact Hu|]. vm_compute; reflexivity.
  - destruct (Hx 0%nat) as (_ & _ & Hl & _).
    etrans; [exact Hl|]. vm_compute; reflexivity.
Defined.

Lemma checkINFTY_fixed_point_witness :
  checkINFTY (loaded all_ok) = Some (loaded all_ok).
Proof.
  apply (proj2 (checkINFTY_fixed_point (Q := Stub.solver all_ok)
                  (loaded all_ok))).
  split; [vm_compute; lia|].
  split_and!; vm_compute;
    repeat (apply Forall_cons; split; [reflexivity|]); apply Forall_nil_2.
Defined.

Lemma checkINFTY_idempotent_witness :
  checkINFTY (clamped (far_bounds all_ok))
  = Some (clamped (far_bounds all_ok)).
Proof.
  apply (checkINFTY_idempotent (Q := Stub.solver all_ok) (far_bounds all_ok)).
  vm_compute; reflexivity.
Defined.

Lemma checkINFTY_frame_witness :
  length (_u (clamped (far_bounds all_ok))) = length (_u (far_bounds all_ok)) /\
  same_task (far_bounds all_ok) (clamped (far_bounds all_ok)).
Proof.
  destruct (checkINFTY_frame (Q := Stub.solver all_ok) (far_bounds all_ok)
              (clamped (far_bounds all_ok)))
    as ((_ & _ & _ & Hu) & Ht & _).
  - vm_compute; reflexivity.
  - split; assumption.
Defined.

End CheckINFTYMore.

(** ** More on the back-end operations *)

Module QPOasesProblemMore.
Import QPOasesProblem CheckINFTYFacts QPOasesProblemFacts.
Section QPOasesProblemMore.
Context {R : Real_t} {Q : qpOASES}.

Implicit Types q : QPOasesProblem.

Lemma length_resize_to n (v : VectorXd) : length (resize_to n v) = n.
Proof.
  unfold resize_to. destruct (Nat.eqb_spec (length v) n); [done|].
  apply length_replicate.
Qed.

Lemma is_success_true val : is_success val = true -> val = SUCCESSFUL_RETURN.
Proof. by destruct val. Qed.

(** What a successful [fetch_solution] leaves. *)
Lemma fetch_solution_in_sync q val q' :
  fetch_solution q = (val, q') -> is_success val = true -> in_sync q'.
Proof.
  unfold fetch_solution, in_sync.
  destruct (getPrimalSolution _ _) as [s x] eqn:Hx.
  destruct (getDualSolution _ _) as [s' y].
  intros [= <- <-] Hs. simpl. split; [done|]. split; [done|].
  eexists. split; [apply length_resize_to|].
  by rewrite Hx, (is_success_true _ Hs).
Qed.

(** The three size tests of [initProblem] have passed when it returns
    success, and the answer of the solver has been fetched. *)
Lemma initProblem_true H0 g A lA uA l u q q' :
  initProblem H0 g A lA uA l u q = Some (true, q') ->
  (length l = length u /\ length lA = rows A /\ length lA = length uA) /\
  in_sync q'.
Proof.
  unfold initProblem.
  destruct (checkINFTY _) as [q1|] eqn:Hq1; simpl; [|done].
  apply checkINFTY_Some in Hq1 as [_ ->]. simpl.
  rewrite !length_sanitised_lower, !length_sanitised_upper.
  destruct (Nat.eqb_spec (length l) (length u)); simpl; [|done].
  destruct (Nat.eqb_spec (length lA) (rows A)); simpl; [|done].
  destruct (Nat.eqb_spec (length lA) (length uA)); simpl; [|done].
  destruct (init _ _ _ _ _ _ _ _ _ _) as [[val n] p]; simpl.
  destruct (is_success val); simpl; [|done].
  destruct (fetch_solution _) as [s q2] eqn:Hf.
  destruct (is_success s) eqn:Hs; simpl; [|done].
  intros [= <-]. split; [done|]. by eapply fetch_solution_in_sync.
Qed.

(** X5: when [initProblem] returns success, its three size tests have
    passed, the stored problem has the shape of the data model, and the
    stored active sets and primal solution are those of the solver
    object. *)
Theorem initProblem_success H0 g A lA uA l u q q' :
  initProblem H0 g A lA uA l u q = Some (true, q') ->
  (length l = length u /\ length lA = rows A /\ length lA = length uA) /\
  well_shaped q' /\ in_sync q'.
Proof.
  intros Hinit.
  destruct (initProblem_true _ _ _ _ _ _ _ _ _ Hinit) as [(Hl & HA & HlA) Hsync].
  split; [done|]. split; [|done].
  apply initProblem_stores in Hinit.
  destruct Hinit as (_ & _ & _ & HAq & HlAq & HuAq & Hlq & Huq & _).
  unfold well_shaped. rewrite HAq, HlAq, HuAq, Hlq, Huq.
  rewrite !length_sanitised_lower, !length_sanitised_upper. done.
Qed.

(** X6: when the sizes are right and the cold [init] of the solver, called
    on the stored data as the loops of [checkINFTY] have left them, fails,
    [initProblem] returns failure with the solver object as [init] left it,
    and the primal and dual solution and the active sets of before. *)
Theorem initProblem_solver_failure H0 g A lA uA l u q val n p :
  length l = length u -> length lA = rows A -> length lA = length uA ->
  (forall d, checkINFTY (set_bounds l u (set_constraints A lA uA
                                          (set_task H0 g q))) = Some d ->
     init (_H d) (_g d) (_A d) (_l d) (_u d) (_lA d) (_uA d) (_nWSR d) None
          (_problem d) = (val, n, p)) ->
  is_success val = false ->
  exists q', initProblem H0 g A lA uA l u q = Some (false, q') /\
    _problem q' = p /\
    _solution q' = _solution q /\ _dual_solution q' = _dual_solution q /\
    _bounds q' = _bounds q /\ _constraints q' = _constraints q.
Proof.
  intros Hl HA HlA Hinit Hval. unfold initProblem.
  assert (in_range (set_bounds l u (set_constraints A lA uA
                                      (set_task H0 g q)))) as Hr.
  { split; simpl; [rewrite <- HlA|rewrite <- Hl]; apply to_unsigned_le. }
  specialize (Hinit _ (checkINFTY_clamped _ Hr)).
  rewrite checkINFTY_clamped by done. simpl in *.
  rewrite !length_sanitised_lower, !length_sanitised_upper.
  rewrite (proj2 (Nat.eqb_eq _ _) Hl), (proj2 (Nat.eqb_eq _ _) HA),
    (proj2 (Nat.eqb_eq _ _) HlA). simpl.
  rewrite Hinit, Hval. simpl. eexists. by split.
Qed.


Lemma sanitised_bounds_lengths lA uA l u q :
  sanitised_bounds lA uA l u q ->
  length (_lA q) = length lA /\ length (_uA q) = length uA /\
  length (_l q) = length l /\ length (_u q) = length u.
Proof.
  intros (-> & -> & -> & ->).
  by rewrite !length_sanitised_lower, !length_sanitised_upper.
Qed.


Lemma updateConstraints_true A lA uA q q' :
  updateConstraints A lA uA q = Some (true, q') ->
  (cols A = cols (_H q) /\ length lA = rows A /\ length lA = length uA) /\
  _A q' = A /\ _H q' = _H q /\ _g q' = _g q /\
  (length (_lA q') = length lA /\ length (_uA q') = length uA /\
   length (_l q') = length (_l q) /\ length (_u q') = length (_u q)) /\
  (rows A = rows (_A q) -> stores_bounds lA uA (_l q) (_u q) q') /\
  (rows A <> rows (_A q) -> sanitised_bounds lA uA (_l q) (_u q) q').
Proof.
  unfold updateConstraints.
  destruct (Nat.eqb_spec (cols A) (cols (_H q))); simpl; [|done].
  destruct (Nat.eqb_spec (length lA) (rows A)); simpl; [|done].
  destruct (Nat.eqb_spec (length lA) (length uA)); simpl; [|done].
  destruct (Nat.eqb_spec (rows A) (rows (_A q))).
  - intros [= <-]. by repeat split.
  - intros Hr. apply rebuild_stores in Hr as ((? & ? & ?) & _ & Hs).
    simpl in *. split; [done|]. split; [done|]. split; [done|].
    split; [done|].
    assert (sanitised_bounds lA uA (_l q) (_u q) q') as Hb by exact Hs.
    split; [by apply sanitised_bounds_lengths|]. by split.
Qed.


(** X8: after a successful [updateConstraints] the stored [A] is the
    argument, it has as many columns as the stored [H], and the stored
    [lA] and [uA] have as many entries as it has rows. *)
Theorem updateConstraints_success A lA uA q q' :
  updateConstraints A lA uA q = Some (true, q') ->
  _A q' = A /\ cols (_A q') = cols (_H q') /\
  length (_lA q') = rows (_A q') /\ length (_uA q') = rows (_A q').
Proof.
  intros Hc. apply updateConstraints_true in Hc
    as ((Hcols & HA & Hu) & -> & -> & _ & (-> & -> & _) & _).
  split; [done|]. split; [done|]. split; [done|]. lia.
Qed.

(** X9: whatever [updateTask] returns, the stored [A] and the configuration
    are what they were, and the stored [H] has the column count it had:
    [updateTask] cannot change the number of variables. *)
Theorem updateTask_frame H0 g q ok q' :
  updateTask H0 g q = Some (ok, q') ->
  _A q' = _A q /\ cols (_H q') = cols (_H q) /\ same_configuration q q'.
Proof.
  unfold updateTask.
  destruct (Nat.eqb_spec (length (_g q)) (rows (_H q))); simpl;
    [|by intros [= <- <-]].
  destruct (Nat.eqb_spec (cols (_H q)) (cols H0)) as [Hc|]; simpl;
    [|by intros [= <- <-]].
  destruct (_ =? _).
  - intros [= <- <-]. by repeat split.
  - intros Hr. apply rebuild_stores in Hr as ((HH & ? & ?) & ? & _).
    simpl in *. by rewrite HH.
Qed.

(** X10: whatever [updateConstraints] returns, the stored [H] and [g] and
    the configuration are what they were. *)
Theorem updateConstraints_frame A lA uA q ok q' :
  updateConstraints A lA uA q = Some (ok, q') ->
  _H q' = _H q /\ _g q' = _g q /\ same_configuration q q'.
Proof.
  unfold updateConstraints.
  destruct (negb _); [by intros [= <- <-]|].
  destruct (negb _); [by intros [= <- <-]|].
  destruct (negb _); [by intros [= <- <-]|].
  destruct (_ =? _).
  - intros [= <- <-]. by repeat split.
  - intros Hr. by apply rebuild_stores in Hr as ((? & ? & ?) & ? & _).
Qed.

(** X11: in every state reached from the constructor through the public
    member functions, the loops of [checkINFTY], which run over the sizes
    of lA and l as an [unsigned int] holds them, stay within uA and u.  So
    [checkINFTY] runs through there, and [solve], [updateTask],
    [updateConstraints] and [updateProblem], which index the stored
    vectors in these loops only, return whenever the calls they make on
    the solver return. *)
Theorem reachable_operations_return q :
  reachable q ->
  (to_unsigned (length (_lA q)) <= length (_uA q) /\
   to_unsigned (length (_l q)) <= length (_u q)) /\
  is_Some (checkINFTY q) /\
  is_Some (solve q) /\
  (forall H0 g, is_Some (updateTask H0 g q)) /\
  (forall A lA uA, is_Some (updateConstraints A lA uA q)) /\
  (forall H0 g A lA uA l u, is_Some (updateProblem H0 g A lA uA l u q)).
Proof.
  intros Hq%reachable_range. split; [done|]. split; [|split; [|split; [|split]]].
  - rewrite checkINFTY_clamped by done. by eexists.
  - destruct (solve_sanitised q Hq) as (ok & q' & -> & _). by eexists.
  - intros. by apply updateTask_returns.
  - intros. apply updateConstraints_returns, Hq.
  - intros. by apply updateProblem_returns.
Qed.



(** X14: on a problem that is just constructed, [updateBounds] accepts
    empty bound vectors only, and [updateTask] and [updateConstraints]
    reject, changing nothing, every matrix that has columns. *)
Theorem fresh_problem_rejects nv nc ht eps :
  let q := new_QPOasesProblem nv nc ht eps in
  (forall l u, (updateBounds l u q).1 = true <-> l = [] /\ u = []) /\
  (forall H0 g, cols H0 <> 0 -> updateTask H0 g q = Some (false, q)) /\
  (forall A lA uA, cols A <> 0 ->
     updateConstraints A lA uA q = Some (false, q)).
Proof.
  intros q. split; [|split].
  - intros l u. unfold updateBounds. simpl.
    rewrite <- !length_zero_iff_nil.
    destruct (Nat.eqb_spec (length l) 0) as [->|]; simpl; [|split; [done|lia]].
    destruct (Nat.eqb_spec (length u) 0) as [->|]; simpl; [|split; [done|lia]].
    done.
  - intros H0 g Hc. unfold updateTask. simpl.
    by destruct (cols H0).
  - intros A lA uA Hc. unfold updateConstraints. simpl.
    by destruct (cols A).
Qed.

(** X15: when [solve] returns success, the stored active sets and primal
    solution are those of the solver object. *)
Theorem solve_success q q' :
  solve q = Some (true, q') -> in_sync q'.
Proof.
  intros Hsolve.
  assert (in_range q) as Hq.
  { unfold solve in Hsolve.
    destruct (checkINFTY q) as [q1|] eqn:Hq1; [|done].
    by apply checkINFTY_Some in Hq1 as [? _]. }
  rewrite solve_unfold in Hsolve by done.
  assert (forall qs, finish_solve qs = Some (true, q') -> in_sync q') as Hfin.
  { intros qs. rewrite finish_solve_cases.
    destruct (fetch_solution qs) as [s qf] eqn:Hf; simpl.
    destruct (is_success s) eqn:Hs.
    - intros [= <-]. by eapply fetch_solution_in_sync.
    - unfold cold_init. intros Hc. by apply initProblem_true in Hc as [_ ?]. }
  destruct (try_hotstart _ _) as [[v1 n1] qh].
  destruct (is_success v1); [by eapply Hfin|].
  destruct (try_warmstart _ _) as [[v2 n2] qw].
  destruct (is_success v2); [by eapply Hfin|].
  unfold cold_init in Hsolve. by apply initProblem_true in Hsolve as [_ ?].
Qed.

End QPOasesProblemMore.

(** *** On the concrete problems *)

Import Examples.
Local Open Scope float_scope.

Lemma initProblem_success_witness :
  well_shaped (loaded all_ok) /\ in_sync (loaded all_ok).
Proof.
  refine (proj2 (initProblem_success (Q := Stub.solver all_ok)
            H_id [1; 1] A_row [-1] [1] [-5; -5] [5; 5]
            (fresh all_ok) (loaded all_ok) _)).
  vm_compute; reflexivity.
Defined.

Lemma initProblem_solver_failure_witness :
  exists q',
    initProblem H_id [1; 1] A_row [-1] [1] [-5; -5] [5; 5]
      (fresh cold_fails) = Some (false, q') /\
    _problem q'
    = Stub.mkProblem 2 1 0 1 Stub.NotInitialised [Stub.InitCold] /\
    _solution q' = [0; 0].
Proof.
  destruct (initProblem_solver_failure (Q := Stub.solver cold_fails)
              H_id [1; 1] A_row [-1] [1] [-5; -5] [5; 5]
              (fresh cold_fails) (RET_ERROR 1) 132%Z
              (Stub.mkProblem 2 1 0 1 Stub.NotInitialised [Stub.InitCold]))
    as (q' & Hinit & Hp & Hsol & _).
  - vm_compute; reflexivity.
  - vm_compute; reflexivity.
  - vm_compute; reflexivity.
  - intros d Hd. vm_compute in Hd. injection Hd as <-.
    vm_compute; reflexivity.
  - vm_compute; reflexivity.
  - exists q'. split; [exact Hinit|]. split; [exact Hp|].
    rewrite Hsol. vm_compute; reflexivity.
Defined.


Lemma updateConstraints_success_witness :
  let q' := state_after
              (updateConstraints (Q := Stub.solver all_ok) A_pair [-2; -2]
                 [2; 2] (loaded all_ok)) (loaded all_ok) in
  _A q' = A_pair /\ cols (_A q') = cols (_H q') /\
  length (_lA q') = rows (_A q') /\ length (_uA q') = rows (_A q').
Proof.
  apply (updateConstraints_success (Q := Stub.solver all_ok)
           A_pair [-2; -2] [2; 2] (loaded all_ok)).
  vm_compute; reflexivity.
Defined.

Lemma updateTask_frame_witness :
  let q' := state_after
              (updateTask (Q := Stub.solver all_ok) H_tall [1; 1; 1]
                 (loaded all_ok)) (loaded all_ok) in
  _A q' = _A (loaded all_ok) /\ cols (_H q') = cols (_H (loaded all_ok)) /\
  same_configuration (loaded all_ok) q'.
Proof.
  apply (updateTask_frame (Q := Stub.solver all_ok) H_tall [1; 1; 1]
           (loaded all_ok) true).
  vm_compute; reflexivity.
Defined.

Lemma updateConstraints_frame_witness :
  let q' := state_after
              (updateConstraints (Q := Stub.solver all_ok) A_pair [-2; -2]
                 [2; 2] (loaded all_ok)) (loaded all_ok) in
  _H q' = _H (loaded all_ok) /\ _g q' = _g (loaded all_ok) /\
  same_configuration (loaded all_ok) q'.
Proof.
  apply (updateConstraints_frame (Q := Stub.solver all_ok) A_pair [-2; -2]
           [2; 2] (loaded all_ok) true).
  vm_compute; reflexivity.
Defined.

Lemma reachable_operations_return_witness :
  is_Some (solve (loaded all_ok)) /\
  is_Some (updateProblem H_tall [1; 1; 1] A_pair [-2; -2] [2; 2] [0; 0]
             [4; 4] (loaded all_ok)).
Proof.
  destruct (reachable_operations_return (Q := Stub.solver all_ok)
              (loaded all_ok)) as (_ & _ & Hs & _ & _ & Hp).
  - apply reachable_loaded.
  - split; [exact Hs|apply Hp].
Defined.



Lemma fresh_problem_rejects_witness :
  updateTask (Q := Stub.solver all_ok) H_id [1; 1] (fresh all_ok)
  = Some (false, fresh all_ok).
Proof.
  apply (proj1 (proj2 (fresh_problem_rejects (Q := Stub.solver all_ok)
                         2 1 0%nat 200))).
  vm_compute. lia.
Defined.

Lemma solve_success_witness :
  in_sync (state_after (solve (loaded all_ok)) (loaded all_ok)).
Proof.
  apply (solve_success (Q := Stub.solver all_ok) (loaded all_ok)).
  vm_compute; reflexivity.
Defined.

End QPOasesProblemMore.

(** ** Logging *)

Module LogFacts.
Section LogFacts.
Context {R : Real_t} {Q : qpOASES}.

Ltac cases_of_log :=
  repeat match goal with
  | |- context [if ?b then _ else _] =>
      let E := fresh "E" in destruct b eqn:E
  end.

Ltac sizes_of_log :=
  repeat match goal with
  | E : (_ && _) = true |- _ => apply andb_true_iff in E as [? ?]
  | E : (_ <? _) = true |- _ => apply Nat.ltb_lt in E
  end.

Ltac pick_sublist :=
  repeat first [apply sublist_nil | apply sublist_skip | apply sublist_cons].

Lemma NoDup_log_names i : NoDup (QPOasesProblem.log_names i).
Proof.
  unfold QPOasesProblem.log_names. generalize (pretty i). intros s. simpl.
  repeat (apply NoDup_cons; split;
          [rewrite ?elem_of_cons, elem_of_nil; intros Hin;
           repeat (destruct Hin as [Hin|Hin]; [discriminate Hin|]); done|]).
  apply NoDup_nil_2.
Qed.

Lemma log_names_disjoint i j name :
  i <> j -> name ∈ QPOasesProblem.log_names i ->
  name ∉ QPOasesProblem.log_names j.
Proof.
  intros Hij. assert (pretty i <> pretty j) as Hs by (by intros ?%(inj pretty)).
  unfold QPOasesProblem.log_names. revert Hs.
  generalize (pretty i) (pretty j). intros s t Hs. simpl.
  rewrite !elem_of_cons, !elem_of_nil. intros Hi Hj.
  repeat (destruct Hi as [Hi|Hi]; [subst name|]); [..|done];
    repeat (destruct Hj as [Hj|Hj];
            [first [discriminate Hj | injection Hj as Hj; by apply Hs]|]);
    done.
Qed.

Lemma problem_log_sublist i (q : QPOasesProblem.QPOasesProblem) :
  (QPOasesProblem.log [] i q).*1 `sublist_of` QPOasesProblem.log_names i.
Proof.
  unfold QPOasesProblem.log, QPOasesProblem.log_names, add.
  generalize (pretty i). intros s. cases_of_log; simpl; pick_sublist.
Qed.

(** A conditional [add] appends its entry exactly when the condition
    holds. *)
Lemma elem_of_add_if (b : bool) name d (logger : MatLogger) x :
  x ∈ (if b then add name d logger else logger)
  <-> x ∈ logger \/ (b = true /\ x = (name, d)).
Proof.
  unfold add. destruct b.
  - rewrite elem_of_app, list_elem_of_singleton. tauto.
  - split; [tauto|]. by intros [?|[? _]].
Qed.

(** X17: [log] of a problem only appends to the logger.  What it appends
    is: [H] under the name [H_i] and [g] under [g_i], always; [A] under
    [A_i] when it has rows and columns; and each of [lA], [uA], [l], [u] and
    the solution under [lA_i], [uA_i], [l_i], [u_i], [solution_i] when it
    has entries; nothing else.  The names come in this order and are
    pairwise different. *)
Theorem problem_log_appends logger i (q : QPOasesProblem.QPOasesProblem) :
  QPOasesProblem.log logger i q = logger ++ QPOasesProblem.log [] i q /\
  (QPOasesProblem.log [] i q).*1 `sublist_of` QPOasesProblem.log_names i /\
  NoDup (QPOasesProblem.log [] i q).*1 /\
  (forall name d, (name, d) ∈ QPOasesProblem.log [] i q <->
     (name = "H_" +:+ pretty i /\ d = LogMatrix (QPOasesProblem._H q)) \/
     (name = "g_" +:+ pretty i /\ d = LogVector (QPOasesProblem._g q)) \/
     (name = "A_" +:+ pretty i /\ d = LogMatrix (QPOasesProblem._A q) /\
      0 < rows (QPOasesProblem._A q) /\ 0 < cols (QPOasesProblem._A q)) \/
     (name = "lA_" +:+ pretty i /\ d = LogVector (QPOasesProblem._lA q) /\
      0 < length (QPOasesProblem._lA q)) \/
     (name = "uA_" +:+ pretty i /\ d = LogVector (QPOasesProblem._uA q) /\
      0 < length (QPOasesProblem._uA q)) \/
     (name = "l_" +:+ pretty i /\ d = LogVector (QPOasesProblem._l q) /\
      0 < length (QPOasesProblem._l q)) \/
     (name = "u_" +:+ pretty i /\ d = LogVector (QPOasesProblem._u q) /\
      0 < length (QPOasesProblem._u q)) \/
     (name = "solution_" +:+ pretty i /\
      d = LogVector (QPOasesProblem._solution q) /\
      0 < length (QPOasesProblem._solution q))).
Proof.
  pose proof (problem_log_sublist i q) as Hsub.
  split; [|split; [done|split]].
  - unfold QPOasesProblem.log, add. cases_of_log; simpl;
      by rewrite <- ?app_assoc.
  - eapply sublist_NoDup; [apply NoDup_log_names|done].
  - intros name d. unfold QPOasesProblem.log. cbv zeta.
    rewrite !elem_of_add_if. unfold add. simpl.
    rewrite !elem_of_cons, elem_of_nil, !pair_equal_spec,
      andb_true_iff, !Nat.ltb_lt.
    tauto.
Qed.

(** X18: logs of two problems under different indices share no name. *)
Theorem problem_log_indices_apart i j
  (q q' : QPOasesProblem.QPOasesProblem) name :
  i <> j ->
  name ∈ (QPOasesProblem.log [] i q).*1 ->
  name ∉ (QPOasesProblem.log [] j q').*1.
Proof.
  intros Hij Hi Hj.
  eapply (log_names_disjoint i j name Hij).
  - eapply elem_of_sublist; [exact Hi|apply problem_log_sublist].
  - eapply elem_of_sublist; [exact Hj|apply problem_log_sublist].
Qed.

Lemma NoDup_log_suffixes : NoDup Constraint.log_suffixes.
Proof. apply (bool_decide_unpack _). by vm_compute. Qed.

(** X19: [log] of a constraint only appends to the logger.  What it
    appends is: [Aeq] and [Aineq] when they have rows and columns, and
    [beq], [bLowerBound], [bUpperBound], [upperBound] and [lowerBound] when
    they have entries, each under the id of the constraint followed by
    [_] and the name of the member; nothing else.  The names come in this
    order and are pairwise different.  A constraint as the constructor
    leaves it logs nothing. *)
Theorem constraint_log_appends logger (c : Constraint.Constraint) :
  let id := Constraint._constraint_id c in
  Constraint.log logger c = logger ++ Constraint.log [] c /\
  (Constraint.log [] c).*1
    `sublist_of` (String.app id <$> Constraint.log_suffixes) /\
  NoDup (Constraint.log [] c).*1 /\
  (forall name d, (name, d) ∈ Constraint.log [] c <->
     (name = id +:+ "_Aeq" /\ d = LogMatrix (Constraint._Aeq c) /\
      0 < rows (Constraint._Aeq c) /\ 0 < cols (Constraint._Aeq c)) \/
     (name = id +:+ "_Aineq" /\ d = LogMatrix (Constraint._Aineq c) /\
      0 < rows (Constraint._Aineq c) /\ 0 < cols (Constraint._Aineq c)) \/
     (name = id +:+ "_beq" /\ d = LogVector (Constraint._beq c) /\
      0 < length (Constraint._beq c)) \/
     (name = id +:+ "_bLowerBound" /\
      d = LogVector (Constraint._bLowerBound c) /\
      0 < length (Constraint._bLowerBound c)) \/
     (name = id +:+ "_bUpperBound" /\
      d = LogVector (Constraint._bUpperBound c) /\
      0 < length (Constraint._bUpperBound c)) \/
     (name = id +:+ "_upperBound" /\
      d = LogVector (Constraint._upperBound c) /\
      0 < length (Constraint._upperBound c)) \/
     (name = id +:+ "_lowerBound" /\
      d = LogVector (Constraint._lowerBound c) /\
      0 < length (Constraint._lowerBound c))) /\
  (forall id' n,
     Constraint.log logger (Constraint.new_Constraint id' n) = logger).
Proof.
  intros id.
  assert ((Constraint.log [] c).*1
          `sublist_of` (String.app id <$> Constraint.log_suffixes)) as Hsub.
  { unfold Constraint.log, Constraint._log, Constraint.log_suffixes, add.
    cases_of_log; simpl; pick_sublist. }
  split; [|split; [done|split; [|split]]].
  - unfold Constraint.log, Constraint._log, add. cases_of_log; simpl;
      by rewrite <- ?app_assoc, ?app_nil_r.
  - eapply sublist_NoDup; [|done].
    apply (NoDup_fmap_2 _), NoDup_log_suffixes.
  - intros name d. unfold Constraint.log, Constraint._log. cbv zeta.
    rewrite !elem_of_add_if.
    rewrite elem_of_nil, !pair_equal_spec, !andb_true_iff, !Nat.ltb_lt.
    fold id. tauto.
  - done.
Qed.

End LogFacts.

Import Examples.

Lemma problem_log_appends_witness :
  ("lA_0", LogVector (R := Double) [(-1)%float])
  ∈ QPOasesProblem.log [] 0 (loaded all_ok).
Proof.
  apply (proj2 (proj2 (proj2 (proj2 (problem_log_appends
           (Q := Stub.solver all_ok) [] 0 (loaded all_ok))))
           "lA_0" _)).
  do 3 right. left. split; [vm_compute; reflexivity|].
  split; [vm_compute; reflexivity|vm_compute; lia].
Defined.

Lemma problem_log_indices_apart_witness :
  "lA_0" ∉ (QPOasesProblem.log [] 1 (after_bad_bounds all_ok)).*1.
Proof.
  apply (problem_log_indices_apart (Q := Stub.solver all_ok) 0 1
           (loaded all_ok) (after_bad_bounds all_ok) "lA_0").
  - lia.
  - apply (list_elem_of_lookup_2 _ 3). vm_compute; reflexivity.
Defined.

Lemma constraint_log_appends_witness :
  ("c_Aineq", LogMatrix (R := Double) (mkMatrix 2 [[1%float; 0%float]]))
  ∈ Constraint.log [] Constraint.ineq_without_bounds.
Proof.
  apply (proj2 (proj1 (proj2 (proj2 (proj2 (constraint_log_appends
           (R := Double) [] Constraint.ineq_without_bounds))))
           "c_Aineq" _)).
  right. left. split; [vm_compute; reflexivity|].
  split; [vm_compute; reflexivity|split; vm_compute; lia].
Defined.

End LogFacts.

(** ** More on the classification of constraints *)

Module ConstraintMore.
Import Constraint.
Section ConstraintMore.
Context {R : Real_t}.

(** X20: an inequality constraint is unilateral or bilateral, never both,
    and nothing else is either; a bound is neither an equality nor an
    inequality constraint; and a constraint as the constructor leaves it
    is none of the seven kinds. *)
Theorem classification_partition (c : Constraint) :
  (isInequalityConstraint c
   = xorb (isUnilateralConstraint c) (isBilateralConstraint c)) /\
  (isBound c = true ->
   hasBounds c = true /\ isEqualityConstraint c = false /\
   isInequalityConstraint c = false /\ isUnilateralConstraint c = false /\
   isBilateralConstraint c = false) /\
  (isConstraint c = true -> isBound c = false) /\
  (forall id n, let c0 := new_Constraint id n in
     isEqualityConstraint c0 = false /\ isInequalityConstraint c0 = false /\
     isUnilateralConstraint c0 = false /\ isBilateralConstraint c0 = false /\
     hasBounds c0 = false /\ isBound c0 = false /\ isConstraint c0 = false).
Proof.
  unfold isBound, isConstraint, isBilateralConstraint, isUnilateralConstraint.
  split; [|split; [|split]].
  - destruct (isInequalityConstraint c); simpl; [|done].
    by destruct (_ || _).
  - destruct (hasBounds c); simpl; [|done].
    destruct (isEqualityConstraint c); simpl; [done|].
    by destruct (isInequalityConstraint c).
  - intros ->. apply andb_false_r.
  - intros id n. by repeat split.
Qed.

End ConstraintMore.

Lemma classification_partition_witness :
  isBound ineq_without_bounds = false.
Proof.
  apply (proj1 (proj2 (proj2
           (classification_partition (R := Double) ineq_without_bounds)))).
  vm_compute; reflexivity.
Defined.

End ConstraintMore.

(** ** The points of the convex hull test *)

Module TestConvexHullFacts.
Import TestConvexHull.
Section TestConvexHullFacts.
Context {R : Real_t} {F : Real_arith}.

Lemma previous_rect_lt j n : 0 < n -> previous_rect j n < n.
Proof.
  intros Hn. unfold previous_rect.
  pose proof (Z.mod_pos_bound ((Z.of_nat j - 1) mod 2 ^ 32) (Z.of_nat n)).
  lia.
Qed.

Lemma nRects_of_le (A_ch : MatrixXd) : nRects_of A_ch <= rows A_ch.
Proof.
  unfold nRects_of.
  pose proof (Z.mod_le (Z.of_nat (rows A_ch)) (2 ^ 32)).
  pose proof (Z.mod_pos_bound (Z.of_nat (rows A_ch)) (2 ^ 32)).
  lia.
Qed.

Lemma coeff_is_Some (A_ch : MatrixXd) r c :
  Forall (fun row => c < length row) (row_list A_ch) ->
  r < rows A_ch -> is_Some (coeff A_ch r c).
Proof.
  intros Hrows Hr. unfold coeff.
  destruct (lookup_lt_is_Some_2 (row_list A_ch) r Hr) as [row Hrow].
  rewrite Hrow. simpl. apply lookup_lt_is_Some_2.
  rewrite Forall_forall in Hrows. apply Hrows.
  by eapply list_elem_of_lookup_2.
Qed.

Lemma points_loop_returns (A_ch : MatrixXd) (b_ch : VectorXd) n :
  Forall (fun row => 2 <= length row) (row_list A_ch) ->
  n <= rows A_ch -> n <= length b_ch ->
  forall left j points, j + left <= n ->
    exists new, points_loop left j n A_ch b_ch points = Some (points ++ new) /\
      length new = left.
Proof.
  intros Hrows HnA Hnb.
  assert (Forall (fun row => 0 < length row) (row_list A_ch)) as Hrows0
    by (eapply Forall_impl; [exact Hrows|simpl; lia]).
  assert (Forall (fun row => 1 < length row) (row_list A_ch)) as Hrows1
    by (eapply Forall_impl; [exact Hrows|simpl; lia]).
  induction left as [|left IH]; intros j points Hj; simpl.
  - exists []. by rewrite app_nil_r.
  - assert (previous_rect j n < n) as Hi by (apply previous_rect_lt; lia).
    destruct (coeff_is_Some A_ch (previous_rect j n) 0 Hrows0) as [a_i ->];
      [lia|].
    destruct (coeff_is_Some A_ch (previous_rect j n) 1 Hrows1) as [b_i ->];
      [lia|].
    destruct (lookup_lt_is_Some_2 b_ch (previous_rect j n)) as [c_i ->];
      [lia|].
    destruct (coeff_is_Some A_ch j 0 Hrows0) as [a_j ->]; [lia|].
    destruct (coeff_is_Some A_ch j 1 Hrows1) as [b_j ->]; [lia|].
    destruct (lookup_lt_is_Some_2 b_ch j) as [c_j ->]; [lia|].
    simpl.
    destruct (IH (S j) (points ++
      [intersection a_i b_i (real_mul (real_opp real_one) c_i)
                    a_j b_j (real_mul (real_opp real_one) c_j)]))
      as (new & -> & Hlen); [lia|].
    eexists (_ :: new). rewrite <- app_assoc. split; [done|].
    simpl. by rewrite Hlen.
Qed.

(** X21: when every row of [A_ch] has at least two coefficients and
    [b_ch] has at least as many entries as [A_ch] has rows,
    [getPointsFromConstraints] indexes nothing out of range and appends
    one point per row (of the row count taken in 32 bits) to the points it
    was given. *)
Theorem getPointsFromConstraints_appends (A_ch : MatrixXd) (b_ch : VectorXd)
  (points : list KDLVector) :
  Forall (fun row => 2 <= length row) (row_list A_ch) ->
  rows A_ch <= length b_ch ->
  exists new,
    getPointsFromConstraints A_ch b_ch points = Some (points ++ new) /\
    length new = nRects_of A_ch /\
    (Z.of_nat (rows A_ch) < 2 ^ 32 -> length new = rows A_ch)%Z.
Proof.
  intros Hrows Hb. unfold getPointsFromConstraints.
  pose proof (nRects_of_le A_ch) as Hn.
  destruct (points_loop_returns A_ch b_ch (nRects_of A_ch) Hrows Hn
              ltac:(lia) (nRects_of A_ch) 0 points ltac:(lia))
    as (new & Hloop & Hlen).
  exists new. split; [done|]. split; [done|].
  intros Hsmall. rewrite Hlen. unfold nRects_of.
  rewrite Z.mod_small by lia. apply Nat2Z.id.
Qed.

(** X22: the row paired with row [j] is always a row of the matrix.  For
    [j >= 1] it is row [j - 1]; for [j = 0] the subtraction wraps around
    in 32 bits, and the row is the last one, [nRects - 1], exactly when
    [nRects] divides [2^32]. *)
Theorem previous_rect_wraps j n :
  0 < n ->
  previous_rect j n < n /\
  (1 <= j < n -> (Z.of_nat n <= 2 ^ 32)%Z -> previous_rect j n = j - 1) /\
  (previous_rect 0 n = n - 1 <-> (Z.of_nat n | 2 ^ 32)%Z).
Proof.
  intros Hn. split; [by apply previous_rect_lt|]. split.
  - intros Hj Hsmall. unfold previous_rect.
    rewrite (Z.mod_small (Z.of_nat j - 1) (2 ^ 32)) by lia.
    rewrite Z.mod_small by lia. lia.
  - unfold previous_rect.
    assert (((Z.of_nat 0 - 1) mod 2 ^ 32)%Z = (2 ^ 32 - 1)%Z) as ->
      by reflexivity.
    pose proof (Z.mod_pos_bound (2 ^ 32 - 1) (Z.of_nat n) ltac:(lia)) as Hb.
    split.
    + intros Hlast.
      assert ((2 ^ 32 - 1) mod Z.of_nat n = Z.of_nat n - 1)%Z as Hmod by lia.
      pose proof (Z.div_mod (2 ^ 32 - 1) (Z.of_nat n) ltac:(lia)) as Hdiv.
      rewrite Hmod in Hdiv.
      exists ((2 ^ 32 - 1) / Z.of_nat n + 1)%Z. lia.
    + intros [k Hk].
      assert ((2 ^ 32 - 1) mod Z.of_nat n = Z.of_nat n - 1)%Z as Hmod.
      { symmetry. apply (Z.mod_unique _ _ (k - 1)); [left; lia|]. lia. }
      lia.
Qed.

End TestConvexHullFacts.

Import Examples.
Local Open Scope float_scope.

Lemma getPointsFromConstraints_appends_witness :
  exists new,
    getPointsFromConstraints A_square [1; 1; 0; 0] [] = Some new /\
    length new = 4%nat.
Proof.
  destruct (getPointsFromConstraints_appends (R := Double) A_square
              [1; 1; 0; 0] [])
    as (new & Hget & _ & Hlen).
  - vm_compute. repeat constructor.
  - vm_compute. lia.
  - exists new. split; [exact Hget|]. apply Hlen. vm_compute. reflexivity.
Defined.

Lemma previous_rect_wraps_witness :
  (previous_rect 0 4 = 3 /\ previous_rect 2 3 = 1 /\ previous_rect 0 3 <> 2)%nat.
Proof.
  split; [|split].
  - apply (proj2 (proj2 (proj2 (previous_rect_wraps 0 4 ltac:(lia))))).
    exists (2 ^ 30)%Z. reflexivity.
  - apply (proj1 (proj2 (previous_rect_wraps 2 3 ltac:(lia)))); lia.
  - intros Hlast.
    apply (proj1 (proj2 (proj2 (previous_rect_wraps 0 3 ltac:(lia))))) in Hlast.
    destruct Hlast as [k Hk]. lia.
Defined.

End TestConvexHullFacts.
